(** * eloTemplate: the comparison loader and the vote action

    A shallow embedding of [app/routes/compare.server.ts]: the pair sampler
    ([loader]), the in-memory rate limiter ([rateLimitMap],
    [sessionRateLimitMap], [cleanupRateLimit]) and the vote handler
    ([action]) with its Elo update.

    Modelling conventions.
    - Ratings ([elo], a JavaScript number / DOUBLE PRECISION column) are real
      numbers; [Math.pow] is [Rpower], [Math.max] is [Rmax].  The rounding
      of IEEE doubles is not part of that model; the module [Double] has the
      calculation of lines 189-194 in binary64 arithmetic, for the inputs
      at which the rounding decides.
    - Millisecond clock readings ([Date.now()]) are integers.
    - [Math.random()] is a rational; the stream of draws of one call of
      [loader] is a function from the draw index.
    - The two rate-limit [Map]s are finite maps from strings to buckets.
    - The [Image] table is a list of its rows, [id] its primary key.  The
      list only enumerates the content: the order in which a query without
      [orderBy] meets the rows is the store's choice and an input of that
      query (the two scans of [loader]).
    - A thrown value is part of the result; the unbounded [while] of the
      loader runs on fuel. *)

From Stdlib Require Import ZArith QArith Qround Reals Lra Lia Ascii String List.
From Stdlib Require Import Floats.
From stdpp Require Import gmap strings list fin_maps.

Local Open Scope Z_scope.

(** ** JavaScript values *)

(** What [Number(formData.get(k))] evaluates to.  The conversion itself is
    the language's; the action starts from its result. *)
Inductive number : Type :=
  | NaN
  | Infinity (negative : bool)
  | Finite (q : Q).

Definition isNaN (n : number) : bool :=
  match n with NaN => true | _ => false end.

(** [a === b] on numbers. *)
Definition strictEq (a b : number) : bool :=
  match a, b with
  | Finite p, Finite q => Qeq_bool p q
  | Infinity s, Infinity t => Bool.eqb s t
  | _, _ => false
  end.

(** The integer a number denotes, when it denotes one. *)
Definition asInteger (n : number) : option Z :=
  match n with
  | Finite q => if (Qden (Qred q) =? 1)%positive then Some (Qnum (Qred q)) else None
  | _ => None
  end.

(** Values a handler throws: [new Error(message)] or
    [new Response(body, { status })]. *)
Inductive thrown : Type :=
  | Error (message : string)
  | Response (body : string) (status : Z).

(** How a handler ends: it returns, it throws, or the fuel of the model ran
    out while it was still looping. *)
Inductive result (A : Type) : Type :=
  | Returned (a : A)
  | Threw (e : thrown)
  | OutOfFuel.
Arguments Returned {A} a.
Arguments Threw {A} e.
Arguments OutOfFuel {A}.

(** ** The Image table *)

Record image : Type := mkImage {
  id : Z;
  name : string;
  url : string;
  elo : R
}.

(** Failures of the store client inside the [try] of [action]. *)
Inductive fault : Type :=
  | NoFault
  | ReadFails       (* a [findUnique] rejects *)
  | CommitFails.    (* the [$transaction] rejects and is rolled back *)

Definition fault_eqb (a b : fault) : bool :=
  match a, b with
  | NoFault, NoFault | ReadFails, ReadFails | CommitFails, CommitFails => true
  | _, _ => false
  end.

(** [db.image.count()] *)
Definition count (table : list image) : Z := Z.of_nat (length table).

(** [db.image.findFirst({ skip })]: the row at that offset, if any, of
    [scan], the order in which the store hands its rows to this query.  The
    query has no [orderBy], so the order is the store's, query by query. *)
Definition findFirst (scan : list image) (skip : Z) : option image :=
  if skip <? 0 then None else nth_error scan (Z.to_nat skip).

(** [db.image.findUnique({ where: { id } })]: [None] is a rejected query (the
    client refuses an [id] that is not an integer), [Some None] is [null]. *)
Definition findUnique (table : list image) (n : number) : option (option image) :=
  match asInteger n with
  | None => None
  | Some z => Some (List.find (fun row => id row =? z) table)
  end.

(** The row after [data: { elo }] is written to the rows whose id is [z]. *)
Definition withElo (z : Z) (newElo : R) (row : image) : image :=
  if id row =? z then mkImage (id row) (name row) (url row) newElo else row.

(** [db.image.update({ where: { id }, data: { elo } })]: rejects when the
    [id] is not an integer or no row has it. *)
Definition update (table : list image) (n : number) (newElo : R) : option (list image) :=
  match asInteger n with
  | None => None
  | Some z =>
      if existsb (fun row => id row =? z) table
      then Some (List.map (withElo z newElo) table)
      else None
  end.

(** [db.$transaction([...])]: the writes in order, all or nothing. *)
Fixpoint transaction (writes : list (number * R)) (table : list image)
    : option (list image) :=
  match writes with
  | [] => Some table
  | (n, newElo) :: rest =>
      match update table n newElo with
      | Some table' => transaction rest table'
      | None => None
      end
  end.

(** ** Elo calculation (lines 189-194 of [action]) *)

Definition K : R := 32.

Definition expectedWinner (winnerElo loserElo : R) : R :=
  (1 / (1 + Rpower 10 ((loserElo - winnerElo) / 400)))%R.

Definition expectedLoser (winnerElo loserElo : R) : R :=
  (1 - expectedWinner winnerElo loserElo)%R.

Definition newWinnerElo (winnerElo loserElo : R) : R :=
  Rmax 0 (winnerElo + K * (1 - expectedWinner winnerElo loserElo))%R.

Definition newLoserElo (winnerElo loserElo : R) : R :=
  Rmax 0 (loserElo + K * (0 - expectedLoser winnerElo loserElo))%R.

(** The update of section 4.2 of the specification, in its words, with the
    K-factor a parameter. *)
Module EloSpec.
Definition expectedWinner (winnerRating loserRating : R) : R :=
  (1 / (1 + Rpower 10 ((loserRating - winnerRating) / 400)))%R.
Definition expectedLoser (winnerRating loserRating : R) : R :=
  (1 - expectedWinner winnerRating loserRating)%R.
Definition update (k winnerRating loserRating : R) : R * R :=
  (Rmax 0 (winnerRating + k * (1 - expectedWinner winnerRating loserRating)),
   Rmax 0 (loserRating + k * (0 - expectedLoser winnerRating loserRating)))%R.
End EloSpec.

(** Lines 189-194 in the arithmetic the handler runs them in: IEEE binary64.
    [Math.pow] is no operation of that arithmetic, so the calculation takes
    [pow], the value [Math.pow(10, (loser.elo - winner.elo) / 400)]
    returned. *)
Module Double.
Definition K : float := 32%float.

(** The second argument of [Math.pow]. *)
Definition exponent (winnerElo loserElo : float) : float :=
  PrimFloat.div (PrimFloat.sub loserElo winnerElo) 400%float.

(** [Math.max(0, x)]: [NaN] for [NaN], [+0] for both zeros. *)
Definition max0 (x : float) : float :=
  if PrimFloat.ltb 0%float x then x
  else if PrimFloat.is_nan x then x else 0%float.

Definition expectedWinner (pow : float) : float :=
  PrimFloat.div 1%float (PrimFloat.add 1%float pow).

Definition expectedLoser (pow : float) : float :=
  PrimFloat.sub 1%float (expectedWinner pow).

Definition newWinnerElo (winnerElo pow : float) : float :=
  max0 (PrimFloat.add winnerElo
          (PrimFloat.mul K (PrimFloat.sub 1%float (expectedWinner pow)))).

Definition newLoserElo (loserElo pow : float) : float :=
  max0 (PrimFloat.add loserElo
          (PrimFloat.mul K (PrimFloat.sub 0%float (expectedLoser pow)))).

(** The double nearest to 10^-17.5, about 3.16e-18: what [Math.pow] returns
    for the exponent -17.5, up to its last bit. *)
Definition tenToMinus17_5 : float := 0x1.d2ab78e5b8623p-59%float.
End Double.

(** ** The pair sampler ([loader]) *)

(** [Math.floor(Math.random() * totalImages)] for the draw [r], with the
    product taken exactly: the rounding of the double product, which can
    move a draw that lies within one rounding of the border of two offsets
    to the next offset, is not modelled.  The offsets stay within 0 and
    [totalImages - 1] either way. *)
Definition randomOffset (r : Q) (totalImages : Z) : Z :=
  Qfloor (r * inject_Z totalImages).

(** [while (randomOffset2 === randomOffset1) randomOffset2 = ...]: [next] is
    the index of the next draw of the generator. *)
Fixpoint redraw (random : nat -> Q) (totalImages randomOffset1 : Z)
    (fuel next : nat) (randomOffset2 : Z) : option Z :=
  if randomOffset2 =? randomOffset1 then
    match fuel with
    | O => None
    | S fuel' =>
        redraw random totalImages randomOffset1 fuel' (S next)
          (randomOffset (random next) totalImages)
    end
  else Some randomOffset2.

Definition loader (random : nat -> Q) (fuel : nat) (table scanA scanB : list image)
    : result (image * image) :=
  let totalImages := count table in
  if totalImages <? 2 then Threw (Error "Need at least 2 images in database")
  else
    let randomOffset1 := randomOffset (random 0%nat) totalImages in
    let randomOffset2 := randomOffset (random 1%nat) totalImages in
    match redraw random totalImages randomOffset1 fuel 2 randomOffset2 with
    | None => OutOfFuel
    | Some randomOffset2 =>
        match findFirst scanA randomOffset1, findFirst scanB randomOffset2 with
        | Some imageA, Some imageB => Returned (imageA, imageB)
        | _, _ => Threw (Error "Failed to load images")
        end
    end.

(** ** The rate limiter *)

(** The value type of both maps: [{ requests: number[], lastCleanup: number }]. *)
Record bucket : Type := mkBucket {
  requests : list Z;
  lastCleanup : Z
}.

(** The two module-level maps. *)
Record rateLimits : Type := mkRateLimits {
  rateLimitMap : gmap string bucket;
  sessionRateLimitMap : gmap string bucket
}.

Definition cleanupInterval : Z := 5 * 60 * 1000.

(** One iteration of a loop of [cleanupRateLimit]: [None] is [delete(key)]. *)
Definition cleanupEntry (now : Z) (data : bucket) : option bucket :=
  if now - lastCleanup data >? cleanupInterval then
    let kept := filter (fun time => now - time < 60 * 1000) (requests data) in
    if (length kept =? 0)%nat then None
    else Some (mkBucket kept now)
  else Some data.

(** [cleanupRateLimit()], with [now] its own reading of the clock. *)
Definition cleanupRateLimit (now : Z) (maps : rateLimits) : rateLimits :=
  mkRateLimits (omap (cleanupEntry now) (rateLimitMap maps))
               (omap (cleanupEntry now) (sessionRateLimitMap maps)).

Section Limiter.

(** The three constants of [action]; the action fixes them to one minute,
    30 and 20. *)
Variables (windowMs maxRequestsPerIP maxRequestsPerSession : Z).

(** [data.requests.filter(time => now - time < windowMs)] *)
Definition recent (now : Z) (reqs : list Z) : list Z :=
  filter (fun time => now - time < windowMs) reqs.

(** [if (!map.has(key)) map.set(key, { requests: [], lastCleanup: now })] *)
Definition ensure (now : Z) (key : string) (m : gmap string bucket)
    : gmap string bucket :=
  match m !! key with
  | Some _ => m
  | None => <[key := mkBucket [] now]> m
  end.

(** [map.get(key)!] after [ensure]. *)
Definition getBucket (now : Z) (key : string) (m : gmap string bucket) : bucket :=
  default (mkBucket [] now) (m !! key).

(** Lines 140-169: both checks, then both pushes.  [Some e] is the thrown
    429 response. *)
Definition rateLimit (now : Z) (clientIP sessionId : string) (maps : rateLimits)
    : option thrown * rateLimits :=
  let ipMap := ensure now clientIP (rateLimitMap maps) in
  let ipRateData := getBucket now clientIP ipMap in
  let recentIPRequests := recent now (requests ipRateData) in
  if Z.of_nat (length recentIPRequests) >=? maxRequestsPerIP then
    (Some (Response "Rate limit exceeded. Please slow down." 429),
     mkRateLimits ipMap (sessionRateLimitMap maps))
  else
    let sessionMap := ensure now sessionId (sessionRateLimitMap maps) in
    let sessionRateData := getBucket now sessionId sessionMap in
    let recentSessionRequests := recent now (requests sessionRateData) in
    if Z.of_nat (length recentSessionRequests) >=? maxRequestsPerSession then
      (Some (Response "Rate limit exceeded for this session. Please slow down." 429),
       mkRateLimits ipMap sessionMap)
    else
      (None,
       mkRateLimits
         (<[clientIP := mkBucket (recentIPRequests ++ [now]) (lastCleanup ipRateData)]> ipMap)
         (<[sessionId := mkBucket (recentSessionRequests ++ [now]) (lastCleanup sessionRateData)]> sessionMap)).

End Limiter.

(** ** The vote handler ([action]) *)

(** One vote submission, with everything the handler reads from outside. *)
Record request : Type := mkRequest {
  winnerId : number;                (* Number(formData.get("winnerId")) *)
  loserId : number;                 (* Number(formData.get("loserId")) *)
  cookieSessionId : option string;  (* session.get("sessionId") *)
  randomUUID : string;              (* crypto.randomUUID() *)
  xForwardedFor : option string;
  xRealIp : option string;
  cfConnectingIp : option string;
  now : Z;                          (* Date.now() of line 130 *)
  cleanupDraw : Q;                  (* Math.random() of line 136 *)
  cleanupNow : Z;                   (* Date.now() inside cleanupRateLimit *)
  storeFault : fault
}.

(** The process-wide state the handler works on. *)
Record world : Type := mkWorld {
  limits : rateLimits;
  images : list image
}.

Definition windowMs : Z := 60 * 1000.
Definition maxRequestsPerIP : Z := 30.
Definition maxRequestsPerSession : Z := 20.

(** [s.split(',')[0]] *)
Fixpoint splitFirst (s : string) : string :=
  match s with
  | EmptyString => EmptyString
  | String c rest => if Ascii.eqb c ","%char then EmptyString else String c (splitFirst rest)
  end.

(** [a || b] for a possibly absent string [a]: the empty string is falsy. *)
Definition orElse (a : option string) (b : string) : string :=
  match a with
  | Some s => if String.eqb s "" then b else s
  | None => b
  end.

Definition sessionIdOf (rq : request) : string :=
  orElse (cookieSessionId rq) (randomUUID rq).

Definition clientIPOf (rq : request) : string :=
  orElse (option_map splitFirst (xForwardedFor rq))
    (orElse (xRealIp rq)
       (orElse (cfConnectingIp rq) "unknown")).

(** [if (Math.random() < 0.1) cleanupRateLimit()] *)
Definition maybeCleanup (rq : request) (maps : rateLimits) : rateLimits :=
  if negb (Qle_bool (1 # 10) (cleanupDraw rq))
  then cleanupRateLimit (cleanupNow rq) maps
  else maps.

(** What the [catch] of [action] receives. *)
Inductive caught : Type :=
  | ImagesNotFound    (* new Error("Images not found") *)
  | StoreRejected.    (* a rejection of the store client *)

(** The body of the [try]: the new table, or the value thrown in it. *)
Definition tryVote (rq : request) (table : list image) : caught + list image :=
  match fault_eqb (storeFault rq) ReadFails,
        findUnique table (winnerId rq), findUnique table (loserId rq) with
  | false, Some winner, Some loser =>
      match winner, loser with
      | Some winner, Some loser =>
          if fault_eqb (storeFault rq) CommitFails then inl StoreRejected
          else
            match transaction
                    [(winnerId rq, newWinnerElo (elo winner) (elo loser));
                     (loserId rq, newLoserElo (elo winner) (elo loser))] table with
            | Some table' => inr table'
            | None => inl StoreRejected
            end
      | _, _ => inl ImagesNotFound
      end
  | _, _, _ => inl StoreRejected
  end.

(** [catch (error) { console.error(...); throw new Error(...) }] *)
Definition rethrow (error : caught) : thrown :=
  Error "Failed to update ratings. Please try again.".

(** The handler: its result (on success the session id committed to the
    cookie) and the state it leaves. *)
Definition action (rq : request) (w : world) : result string * world :=
  if isNaN (winnerId rq) || isNaN (loserId rq) || strictEq (winnerId rq) (loserId rq)
  then (Threw (Error "Invalid image IDs"), w)
  else
    let sessionId := sessionIdOf rq in
    let clientIP := clientIPOf rq in
    let maps := maybeCleanup rq (limits w) in
    match rateLimit windowMs maxRequestsPerIP maxRequestsPerSession
            (now rq) clientIP sessionId maps with
    | (Some response, maps') => (Threw response, mkWorld maps' (images w))
    | (None, maps') =>
        match tryVote rq (images w) with
        | inr table' => (Returned sessionId, mkWorld maps' table')
        | inl error => (Threw (rethrow error), mkWorld maps' (images w))
        end
    end.

(** ** Specification-side notions and fixtures *)

(** An identifier as the interface of the vote submission declares it
    ([winnerId: integer]): a number that denotes an integer. *)
Definition wellFormedIdentifier (n : number) : bool :=
  match asInteger n with Some _ => true | None => false end.

(** The timestamps recorded for [key], none when it has no bucket. *)
Definition bucketRequests (key : string) (m : gmap string bucket) : list Z :=
  match m !! key with Some data => requests data | None => [] end.

(** The rating stored for the id [z], if a row has it. *)
Definition ratingOf (table : list image) (z : Z) : option R :=
  option_map elo (List.find (fun row => id row =? z) table).

(** The primary-key and clamping invariants of the table. *)
Definition uniqueIds (table : list image) : Prop := List.NoDup (List.map id table).
Definition nonNegative (table : list image) : Prop :=
  List.Forall (fun row => (0 <= elo row)%R) table.






(** Every rating of the table lies between 0 and [bound]. *)
Definition ratingsUpTo (bound : R) (table : list image) : Prop :=
  List.Forall (fun row => (0 <= elo row <= bound)%R) table.

Definition noLimits : rateLimits := mkRateLimits ∅ ∅.

Definition imageA : image := mkImage 1 "A" "/external-images/A.webp" 1200.
Definition imageB : image := mkImage 2 "B" "/external-images/B.webp" 1200.
Definition twoImages : world := mkWorld noLimits [imageA; imageB].

(** A vote for [winner] over [loser] at time [t], from a client without
    cookie or proxy headers, with no cleanup and no store fault. *)
Definition vote (winner loser : number) (t : Z) : request :=
  mkRequest winner loser None "uuid-1" None None None t 1 t NoFault.

Definition voteAB : request := vote (Finite 1) (Finite 2) 1000.

Definition voteABagain : request := vote (Finite 1) (Finite 2) 2000.

(** A vote whose loser id 99 no row has, a vote whose transaction the store
    rejects, a vote whose winner id is the number 1.5, and a vote for an
    image over itself. *)
Definition voteMissing : request := vote (Finite 1) (Finite 99) 1000.
Definition voteCommitFails : request :=
  mkRequest (Finite 1) (Finite 2) None "uuid-1" None None None 1000 1 1000 CommitFails.
Definition voteFraction : request := vote (Finite (3 # 2)) (Finite 2) 1000.
Definition voteSelf : request := vote (Finite 1) (Finite 1) 1000.

(** The rejection of section 4.5 for a malformed submission: the handler
    throws the validation error and leaves the state as it was. *)
Definition rejectedAsInvalid (rq : request) (w : world) : Prop :=
  action rq w = (Threw (Error "Invalid image IDs"), w).

(** The timestamps of [key] a check at time [t] counts: the recorded ones
    within the trailing window. *)
Definition counted (window t : Z) (key : string) (m : gmap string bucket) : list Z :=
  recent window t (bucketRequests key m).

(** The ids of a request pass the validation of [action]. *)
Definition validIds (rq : request) : bool :=
  negb (isNaN (winnerId rq) || isNaN (loserId rq) || strictEq (winnerId rq) (loserId rq)).

(** The handler ends with a thrown 429 response. *)
Definition rateLimited (outcome : result string) : Prop :=
  exists body, outcome = Threw (Response body 429).

(** The limiter of lines 140-169 throws its 429 response. *)
Definition throttled (verdict : option thrown) : Prop :=
  exists body, verdict = Some (Response body 429).

(** [Math.random()] draws from the interval from 0 (included) to 1
    (excluded). *)
Definition unitDraws (random : nat -> Q) : Prop :=
  forall i, (0 <= random i)%Q /\ (random i < 1)%Q.

(** The draw of index [i] gives the offset of the first draw. *)
Definition collides (random : nat -> Q) (totalImages : Z) (i : nat) : Prop :=
  randomOffset (random i) totalImages = randomOffset (random 0%nat) totalImages.

(** The offsets the loop of [redraw] tests, in order: the one it starts
    with, then the draws from index [next] on. *)
Definition tested (random : nat -> Q) (totalImages : Z) (next : nat) (randomOffset2 : Z)
    (j : nat) : Z :=
  match j with
  | O => randomOffset2
  | S j' => randomOffset (random (next + j')%nat) totalImages
  end.

(** Two orders in which a query can meet the two rows: an order of the
    heap after a vote has rewritten rows, and the order of the ids. *)
Definition heapOrder : list image := [imageB; imageA].
Definition idOrder : list image := [imageA; imageB].

(** A generator that always draws 0. *)
Definition stuckRandom : nat -> Q := fun _ => 0%Q.

(** A generator whose first [n + 2] draws are 0 and whose later draws are
    one half. *)
Definition lateRandom (n : nat) : nat -> Q :=
  fun i => if (i <? n + 2)%nat then 0%Q else (1 # 2)%Q.

(** ** Notions for the properties beyond the claims *)

(** No bucket of the map holds more than [n] timestamps. *)
Definition atMost (n : Z) (m : gmap string bucket) : Prop :=
  forall key data, m !! key = Some data -> Z.of_nat (length (requests data)) <= n.

(** The verdicts of the limiter of [action] for one identity asking at the
    given times, one request after the other. *)
Fixpoint burst (clientIP sessionId : string) (times : list Z) (maps : rateLimits)
    : list (option thrown) :=
  match times with
  | [] => []
  | t :: later =>
      let step := rateLimit windowMs maxRequestsPerIP maxRequestsPerSession
                    t clientIP sessionId maps in
      fst step :: burst clientIP sessionId later (snd step)
  end.

(** The string has a comma in it. *)
Fixpoint hasComma (s : string) : bool :=
  match s with
  | EmptyString => false
  | String c rest => Ascii.eqb c ","%char || hasComma rest
  end.

(** A request through a proxy that lists two addresses, with a session
    cookie, at a time when the cleanup runs. *)
Definition voteProxied : request :=
  mkRequest (Finite 1) (Finite 2) (Some "session-7") "uuid-2"
    (Some "203.0.113.9, 10.0.0.1") (Some "10.0.0.1") None 400000 0 400000 NoFault.

(** A map with one bucket that was last cleaned at time 1000 and holds the
    given timestamps. *)
Definition oneBucket (times : list Z) : gmap string bucket :=
  {[ "unknown"%string := mkBucket times 1000 ]}.

(** A table of four rows and votes on two disjoint pairs of them. *)
Definition imageC : image := mkImage 3 "C" "/external-images/C.webp" 1300.
Definition imageD : image := mkImage 4 "D" "/external-images/D.webp" 50.
Definition fourImages : world := mkWorld noLimits [imageA; imageB; imageC; imageD].
Definition voteCD : request := vote (Finite 3) (Finite 4) 3000.

(** ** Properties of the expected scores and of the clamp *)

Section Elo.

Local Open Scope R_scope.

Lemma pow10_pos (x : R) : 0 < Rpower 10 x.
Proof. unfold Rpower. apply exp_pos. Qed.

Lemma expectedWinner_range (w l : R) : 0 < expectedWinner w l < 1.
Proof.
  unfold expectedWinner. pose proof (pow10_pos ((l - w) / 400)) as Hp.
  split.
  - apply Rdiv_lt_0_compat; lra.
  - apply (Rmult_lt_reg_r (1 + Rpower 10 ((l - w) / 400))); [lra|].
    unfold Rdiv. rewrite Rmult_assoc, Rinv_l by lra. lra.
Qed.

(** The expected score of the winner grows with the rating gap. *)
Lemma expectedWinner_mono (w l w' l' : R) :
  w - l < w' - l' -> expectedWinner w l < expectedWinner w' l'.
Proof.
  intros Hgap. unfold expectedWinner.
  pose proof (pow10_pos ((l - w) / 400)) as Hp.
  pose proof (pow10_pos ((l' - w') / 400)) as Hp'.
  assert (Hlt : Rpower 10 ((l' - w') / 400) < Rpower 10 ((l - w) / 400))
    by (apply Rpower_lt; lra).
  unfold Rdiv at 1 3. rewrite !Rmult_1_l.
  apply Rinv_lt_contravar; [|lra].
  apply Rmult_lt_0_compat; lra.
Qed.

Lemma expectedWinner_equal (a : R) : expectedWinner a a = / 2.
Proof.
  unfold expectedWinner. replace ((a - a) / 400) with 0 by lra.
  rewrite Rpower_O by lra. lra.
Qed.

Lemma newWinnerElo_nonneg (w l : R) : 0 <= newWinnerElo w l.
Proof. unfold newWinnerElo. apply Rmax_l. Qed.

Lemma newLoserElo_nonneg (w l : R) : 0 <= newLoserElo w l.
Proof. unfold newLoserElo. apply Rmax_l. Qed.

(** On a non-negative rating the clamp of the winner is idle. *)
Lemma newWinnerElo_unclamped (w l : R) :
  0 <= w -> newWinnerElo w l = w + K * (1 - expectedWinner w l).
Proof.
  intros Hw. unfold newWinnerElo, K.
  pose proof (expectedWinner_range w l). apply Rmax_right. lra.
Qed.

Lemma newLoserElo_le (w l : R) : 0 <= l -> newLoserElo w l <= l.
Proof.
  intros Hl. unfold newLoserElo, expectedLoser, K.
  pose proof (expectedWinner_range w l). apply Rmax_lub; lra.
Qed.

End Elo.

(** ** Properties of the store operations *)

Section Store.

Lemma asInteger_Finite (n : number) (z : Z) :
  asInteger n = Some z -> exists q, n = Finite q /\ Qred q = (z # 1)%Q.
Proof.
  destruct n as [| s | q]; unfold asInteger; intros Hn; try discriminate Hn.
  destruct (Qden (Qred q) =? 1)%positive eqn:Hden; [|discriminate Hn].
  injection Hn as <-. exists q. split; [reflexivity|].
  apply Pos.eqb_eq in Hden. destruct (Qred q) as [num den]. simpl in *.
  congruence.
Qed.

(** Two submitted ids that differ under [===] denote different integers. *)
Lemma asInteger_distinct (a b : number) (za zb : Z) :
  asInteger a = Some za -> asInteger b = Some zb ->
  strictEq a b = false -> za <> zb.
Proof.
  intros Ha Hb Hneq ->.
  apply asInteger_Finite in Ha as (p & -> & Hp).
  apply asInteger_Finite in Hb as (q & -> & Hq).
  simpl in Hneq.
  assert (Heq : (p == q)%Q) by (apply Qred_eq_iff; congruence).
  apply Qeq_bool_iff in Heq. congruence.
Qed.

Lemma withElo_id (z : Z) (e : R) (row : image) : id (withElo z e row) = id row.
Proof. unfold withElo. destruct (id row =? z); reflexivity. Qed.

Lemma withElo_name (z : Z) (e : R) (row : image) : name (withElo z e row) = name row.
Proof. unfold withElo. destruct (id row =? z); reflexivity. Qed.

Lemma withElo_url (z : Z) (e : R) (row : image) : url (withElo z e row) = url row.
Proof. unfold withElo. destruct (id row =? z); reflexivity. Qed.

Lemma withElo_other (z : Z) (e : R) (row : image) :
  id row <> z -> withElo z e row = row.
Proof. intros Hne. unfold withElo. apply Z.eqb_neq in Hne. now rewrite Hne. Qed.

Lemma withElo_hit (z : Z) (e : R) (row : image) :
  id row = z -> withElo z e row = mkImage (id row) (name row) (url row) e.
Proof. intros Heq. unfold withElo. apply Z.eqb_eq in Heq. now rewrite Heq. Qed.

(** A write keeps the ids, so a lookup by id finds the written row. *)
Lemma find_withElo (z z' : Z) (e : R) (table : list image) :
  List.find (fun row => id row =? z') (List.map (withElo z e) table)
  = option_map (withElo z e) (List.find (fun row => id row =? z') table).
Proof.
  induction table as [| row rest IH]; simpl; [reflexivity|].
  rewrite withElo_id. destruct (id row =? z'); [reflexivity | exact IH].
Qed.

Lemma find_id (z : Z) (table : list image) (row : image) :
  List.find (fun row => id row =? z) table = Some row -> id row = z.
Proof.
  intros Hfind. apply List.find_some in Hfind as [_ Hid]. now apply Z.eqb_eq.
Qed.

Lemma update_Some (table table' : list image) (n : number) (e : R) :
  update table n e = Some table' ->
  exists z, asInteger n = Some z /\ table' = List.map (withElo z e) table.
Proof.
  unfold update. destruct (asInteger n) as [z|]; [|intros H; discriminate H].
  destruct (existsb _ table); [|intros H; discriminate H].
  intros [= <-]. eauto.
Qed.

Lemma update_found (table : list image) (n : number) (z : Z) (e : R) (row : image) :
  asInteger n = Some z ->
  List.find (fun row => id row =? z) table = Some row ->
  update table n e = Some (List.map (withElo z e) table).
Proof.
  intros Hn Hfind. unfold update. rewrite Hn.
  assert (Hex : existsb (fun row => id row =? z) table = true).
  { apply List.existsb_exists. exists row.
    apply List.find_some in Hfind. exact Hfind. }
  now rewrite Hex.
Qed.

End Store.

(** ** What a returned vote did *)

Section Vote.

(** The table a successful [try] leaves: both ids resolved, and the two
    writes applied to the table that was read. *)
Lemma tryVote_inr (rq : request) (table table' : list image) :
  tryVote rq table = inr table' ->
  exists zw zl winner loser,
    asInteger (winnerId rq) = Some zw /\ asInteger (loserId rq) = Some zl /\
    List.find (fun row => id row =? zw) table = Some winner /\
    List.find (fun row => id row =? zl) table = Some loser /\
    table' = List.map (withElo zl (newLoserElo (elo winner) (elo loser)))
               (List.map (withElo zw (newWinnerElo (elo winner) (elo loser))) table).
Proof.
  unfold tryVote, findUnique.
  destruct (fault_eqb (storeFault rq) ReadFails); [intros H; discriminate H|].
  destruct (asInteger (winnerId rq)) as [zw|] eqn:Hzw; [|intros H; discriminate H].
  destruct (asInteger (loserId rq)) as [zl|] eqn:Hzl; [|intros H; discriminate H].
  destruct (List.find (fun row => id row =? zw) table) as [winner|] eqn:Hw;
    [|intros H; discriminate H].
  destruct (List.find (fun row => id row =? zl) table) as [loser|] eqn:Hl;
    [|intros H; discriminate H].
  destruct (fault_eqb (storeFault rq) CommitFails); [intros H; discriminate H|].
  simpl transaction.
  destruct (update table (winnerId rq) _) as [t1|] eqn:Hu1; [|intros H; discriminate H].
  destruct (update t1 (loserId rq) _) as [t2|] eqn:Hu2; [|intros H; discriminate H].
  intros [= <-].
  apply update_Some in Hu1 as (z1 & Hz1 & ->).
  apply update_Some in Hu2 as (z2 & Hz2 & ->).
  rewrite Hzw in Hz1. rewrite Hzl in Hz2.
  injection Hz1 as <-. injection Hz2 as <-.
  exists zw, zl, winner, loser. repeat split; try assumption; reflexivity.
Qed.

(** A vote that is returned from passed the validation and its [try]. *)
Lemma action_Returned (rq : request) (w w' : world) (sid : string) :
  action rq w = (Returned sid, w') ->
  strictEq (winnerId rq) (loserId rq) = false /\
  tryVote rq (images w) = inr (images w').
Proof.
  unfold action.
  destruct (isNaN (winnerId rq) || isNaN (loserId rq)
            || strictEq (winnerId rq) (loserId rq)) eqn:Hvalid;
    [intros H; discriminate H|].
  apply orb_false_iff in Hvalid as [_ Hneq].
  destruct (rateLimit _ _ _ _ _ _ _) as [[response|] maps'];
    [intros H; discriminate H|].
  destruct (tryVote rq (images w)) as [error|table'];
    [intros H; discriminate H|].
  intros [= _ <-]. split; [exact Hneq | reflexivity].
Qed.

(** What a returned vote did to the table. *)
Lemma action_applied (rq : request) (w w' : world) (sid : string) :
  action rq w = (Returned sid, w') ->
  exists zw zl winner loser,
    asInteger (winnerId rq) = Some zw /\ asInteger (loserId rq) = Some zl /\
    zw <> zl /\
    List.find (fun row => id row =? zw) (images w) = Some winner /\
    List.find (fun row => id row =? zl) (images w) = Some loser /\
    images w' =
      List.map (withElo zl (newLoserElo (elo winner) (elo loser)))
        (List.map (withElo zw (newWinnerElo (elo winner) (elo loser))) (images w)).
Proof.
  intros Hret. apply action_Returned in Hret as [Hneq Htry].
  apply tryVote_inr in Htry as (zw & zl & winner & loser & Hzw & Hzl & Hw & Hl & Htable).
  exists zw, zl, winner, loser. repeat split; try assumption.
  eapply asInteger_distinct; eassumption.
Qed.

(** The ratings stored for the two ids after the two writes. *)
Lemma ratingOf_written (table : list image) (zw zl : Z) (winner loser : image) (ew el : R) :
  zw <> zl ->
  List.find (fun row => id row =? zw) table = Some winner ->
  List.find (fun row => id row =? zl) table = Some loser ->
  let table' := List.map (withElo zl el) (List.map (withElo zw ew) table) in
  ratingOf table' zw = Some ew /\ ratingOf table' zl = Some el.
Proof.
  intros Hne Hw Hl table'. unfold ratingOf, table'.
  rewrite !find_withElo, Hw, Hl. simpl.
  pose proof (find_id _ _ _ Hw) as Hidw. pose proof (find_id _ _ _ Hl) as Hidl.
  split.
  - rewrite (withElo_hit zw ew winner Hidw).
    rewrite withElo_other by (simpl; congruence). reflexivity.
  - rewrite (withElo_other zw ew loser) by congruence.
    rewrite (withElo_hit zl el loser Hidl). reflexivity.
Qed.

End Vote.

(** ** The claims about the Elo update *)

Section EloClaims.

Local Open Scope R_scope.

Lemma update_equal_1200 : EloSpec.update 32 1200 1200 = (1216, 1184).
Proof.
  unfold EloSpec.update, EloSpec.expectedLoser.
  change (EloSpec.expectedWinner 1200 1200) with (expectedWinner 1200 1200).
  rewrite expectedWinner_equal.
  replace (1200 + 32 * (1 - / 2)) with 1216 by lra.
  replace (1200 + 32 * (0 - (1 - / 2))) with 1184 by lra.
  rewrite !Rmax_right by lra. reflexivity.
Qed.

(** C1. A vote that is applied stores, for the winner and the loser, the
    ratings the Elo formula of the specification gives with K = 32 from the
    ratings that were stored: expectedWinner = 1/(1 + 10^((loser -
    winner)/400)), expectedLoser = 1 - expectedWinner, the new winner rating
    max(0, winner + K*(1 - expectedWinner)) and the new loser rating
    max(0, loser + K*(0 - expectedLoser)).  The code's calculation is that
    formula for every pair of ratings, and two ratings of 1200 become 1216
    and 1184. *)
Theorem vote_computes_elo_formula (rq : request) (w w' : world) (sid : string) :
  action rq w = (Returned sid, w') ->
  (exists zw zl ew el,
      asInteger (winnerId rq) = Some zw /\ asInteger (loserId rq) = Some zl /\
      ratingOf (images w) zw = Some ew /\ ratingOf (images w) zl = Some el /\
      ratingOf (images w') zw = Some (fst (EloSpec.update 32 ew el)) /\
      ratingOf (images w') zl = Some (snd (EloSpec.update 32 ew el))) /\
  (forall a b : R, (newWinnerElo a b, newLoserElo a b) = EloSpec.update 32 a b) /\
  EloSpec.update 32 1200 1200 = (1216, 1184).
Proof.
  intros Hret. split; [|split; [reflexivity | exact update_equal_1200]].
  apply action_applied in Hret
    as (zw & zl & winner & loser & Hzw & Hzl & Hne & Hw & Hl & ->).
  exists zw, zl, (elo winner), (elo loser).
  destruct (ratingOf_written (images w) zw zl winner loser
              (newWinnerElo (elo winner) (elo loser))
              (newLoserElo (elo winner) (elo loser)) Hne Hw Hl) as [Hrw Hrl].
  unfold ratingOf at 1 2. rewrite Hw, Hl. simpl option_map.
  repeat split; assumption.
Qed.

Lemma vote_computes_elo_formula_witness :
  action voteAB twoImages = (Returned "uuid-1"%string, snd (action voteAB twoImages)) /\
  ratingOf (images (snd (action voteAB twoImages))) 1 = Some 1216 /\
  ratingOf (images (snd (action voteAB twoImages))) 2 = Some 1184.
Proof.
  assert (Hret : action voteAB twoImages
                 = (Returned "uuid-1"%string, snd (action voteAB twoImages)))
    by reflexivity.
  split; [exact Hret|].
  destruct (vote_computes_elo_formula _ _ _ _ Hret)
    as [(zw & zl & ew & el & Hzw & Hzl & Hew & Hel & Hw' & Hl') [_ H1200]].
  injection Hzw as <-. injection Hzl as <-.
  injection Hew as <-. injection Hel as <-.
  rewrite H1200 in Hw', Hl'. split; assumption.
Defined.

(** Every way the handler can end: it returns after both writes, or it
    throws and the table is the one it started from. *)
Lemma action_cases (rq : request) (w : world) :
  (exists sid, action rq w = (Returned sid, snd (action rq w))) \/
  (exists e, fst (action rq w) = Threw e /\ images (snd (action rq w)) = images w).
Proof.
  unfold action.
  destruct (isNaN (winnerId rq) || isNaN (loserId rq)
            || strictEq (winnerId rq) (loserId rq));
    [right; eexists; split; reflexivity|].
  destruct (rateLimit _ _ _ _ _ _ _) as [[response|] maps'];
    [right; eexists; split; reflexivity|].
  destruct (tryVote rq (images w)) as [error|table'].
  - right; eexists; split; reflexivity.
  - left; eexists; reflexivity.
Qed.

Lemma withElo_nonNegative (z : Z) (e : R) (table : list image) :
  0 <= e -> nonNegative table -> nonNegative (List.map (withElo z e) table).
Proof.
  intros He Htable. unfold nonNegative in *.
  induction Htable as [| row rest Hrow _ IH]; simpl; constructor; [|exact IH].
  unfold withElo. destruct (id row =? z); [exact He | exact Hrow].
Qed.

(** C2. Both ratings the Elo update computes are at least 0 for every
    pair of input ratings, and a table whose ratings are all at least 0
    still is after any vote request, however it ends. *)
Theorem vote_keeps_ratings_non_negative (rq : request) (w : world) :
  nonNegative (images w) ->
  nonNegative (images (snd (action rq w))) /\
  (forall a b : R, 0 <= newWinnerElo a b /\ 0 <= newLoserElo a b).
Proof.
  intros Hinv. split.
  - destruct (action_cases rq w) as [[sid Hret] | (e & _ & Hsame)].
    + apply action_applied in Hret
        as (zw & zl & winner & loser & _ & _ & _ & _ & _ & ->).
      apply withElo_nonNegative; [apply newLoserElo_nonneg|].
      apply withElo_nonNegative; [apply newWinnerElo_nonneg | exact Hinv].
    + rewrite Hsame. exact Hinv.
  - intros a b. split; [apply newWinnerElo_nonneg | apply newLoserElo_nonneg].
Qed.

Lemma twoImages_nonNegative : nonNegative (images twoImages).
Proof. repeat constructor; simpl; lra. Qed.

Lemma vote_keeps_ratings_non_negative_witness :
  nonNegative (images twoImages) /\
  nonNegative (images (snd (action voteAB twoImages))).
Proof.
  split; [exact twoImages_nonNegative|].
  apply (vote_keeps_ratings_non_negative voteAB twoImages).
  repeat constructor; simpl; lra.
Defined.



(** The second of two identical votes: the winner gains again, but less;
    the loser, where the clamp is not reached, loses again, but less. *)
Lemma second_vote_smaller (w l : R) :
  0 <= w -> 0 <= l ->
  let w1 := newWinnerElo w l in
  let l1 := newLoserElo w l in
  let w2 := newWinnerElo w1 l1 in
  let l2 := newLoserElo w1 l1 in
  w < w1 /\ w1 < w2 /\ w2 - w1 < w1 - w /\
  (0 < l2 -> l2 < l1 /\ l1 < l /\ l1 - l2 < l - l1) /\
  l2 <= l1 /\ l1 <= l /\ (64 <= l -> 0 < l2).
Proof.
  intros Hw Hl w1 l1 w2 l2.
  pose proof (expectedWinner_range w l) as Hr.
  assert (Hw1 : w1 = w + K * (1 - expectedWinner w l))
    by apply (newWinnerElo_unclamped w l Hw).
  assert (Hl1 : l1 <= l) by apply (newLoserElo_le w l Hl).
  assert (Hw1pos : 0 <= w1) by (rewrite Hw1; unfold K; lra).
  assert (Hl1pos : 0 <= l1) by apply newLoserElo_nonneg.
  assert (Hw2 : w2 = w1 + K * (1 - expectedWinner w1 l1))
    by apply (newWinnerElo_unclamped w1 l1 Hw1pos).
  pose proof (expectedWinner_range w1 l1) as Hr1.
  assert (Hmono : expectedWinner w l < expectedWinner w1 l1)
    by (apply expectedWinner_mono; rewrite Hw1; unfold K; lra).
  unfold K in Hw1, Hw2.
  split; [lra|]. split; [lra|]. split; [lra|].
  assert (Hl2le : l2 <= l1) by apply (newLoserElo_le w1 l1 Hl1pos).
  assert (Hrich : 64 <= l -> 0 < l2).
  { intros Hl64.
    assert (Hge1 : l + K * (0 - expectedLoser w l) <= l1)
      by (unfold l1, newLoserElo; apply Rmax_r).
    assert (Hge2 : l1 + K * (0 - expectedLoser w1 l1) <= l2)
      by (unfold l2, newLoserElo; apply Rmax_r).
    unfold expectedLoser, K in Hge1, Hge2. lra. }
  split; [|split; [exact Hl2le | split; [exact Hl1 | exact Hrich]]].
  intros Hl2.
  assert (Hl2eq : l2 = l1 + K * (0 - expectedLoser w1 l1)).
  { unfold l2, newLoserElo, Rmax in *.
    destruct (Rle_dec 0 (l1 + K * (0 - expectedLoser w1 l1))); [reflexivity | lra]. }
  unfold expectedLoser, K in Hl2eq.
  assert (Hl1eq : l1 = l + K * (0 - expectedLoser w l)).
  { assert (Hpos : 0 < l1) by lra.
    unfold l1, newLoserElo, Rmax in *.
    destruct (Rle_dec 0 (l + K * (0 - expectedLoser w l))); [reflexivity | lra]. }
  unfold expectedLoser, K in Hl1eq. lra.
Qed.

Lemma nonNegative_find (table : list image) (z : Z) (row : image) :
  nonNegative table ->
  List.find (fun row => id row =? z) table = Some row -> 0 <= elo row.
Proof.
  intros Hinv Hfind. apply List.find_some in Hfind as [Hin _].
  unfold nonNegative in Hinv. rewrite List.Forall_forall in Hinv.
  exact (Hinv row Hin).
Qed.

Lemma ratingOf_find (table : list image) (z : Z) (row : image) (e : R) :
  List.find (fun row => id row =? z) table = Some row ->
  ratingOf table z = Some e -> elo row = e.
Proof. unfold ratingOf. intros ->. simpl. congruence. Qed.

(** C4, as worded, fails in the arithmetic of the handler.  For a winner
    rated 8000 and a loser rated 1000 the exponent is -17.5 and the power
    about 3.16e-18; added to 1 it is rounded away, the expected score of the
    winner is exactly 1, and the vote stores 8000 and 1000 again: applied
    once or twice, it changes neither rating. *)
Lemma vote_at_large_gap_changes_nothing :
  Double.exponent 8000%float 1000%float = (-17.5)%float /\
  PrimFloat.add 1%float Double.tenToMinus17_5 = 1%float /\
  Double.expectedWinner Double.tenToMinus17_5 = 1%float /\
  Double.newWinnerElo 8000%float Double.tenToMinus17_5 = 8000%float /\
  Double.newLoserElo 1000%float Double.tenToMinus17_5 = 1000%float.
Proof. repeat split; reflexivity. Qed.

(** C4, amended. On a table whose ratings lie between 0 and 2000, two
    identical votes in sequence are not idempotent: the second vote starts
    from the ratings the first one stored, the winner's rating rises at the
    first and again at the second, and the second rise is smaller than the
    first; the loser's rating never rises, a loser rated 64 or more is still
    above the clamp after both votes, and a loser above the clamp after
    both has fallen twice, the second time by less. *)
Theorem repeated_vote_not_idempotent
    (rq rq' : request) (w0 w1 w2 : world) (s1 s2 : string) :
  ratingsUpTo 2000 (images w0) ->
  winnerId rq' = winnerId rq -> loserId rq' = loserId rq ->
  action rq w0 = (Returned s1, w1) ->
  action rq' w1 = (Returned s2, w2) ->
  exists zw zl e0 e1 e2 l0 l1 l2,
    asInteger (winnerId rq) = Some zw /\ asInteger (loserId rq) = Some zl /\
    ratingOf (images w0) zw = Some e0 /\ ratingOf (images w0) zl = Some l0 /\
    ratingOf (images w1) zw = Some e1 /\ ratingOf (images w1) zl = Some l1 /\
    ratingOf (images w2) zw = Some e2 /\ ratingOf (images w2) zl = Some l2 /\
    e1 = newWinnerElo e0 l0 /\ l1 = newLoserElo e0 l0 /\
    e2 = newWinnerElo e1 l1 /\ l2 = newLoserElo e1 l1 /\
    e0 < e1 /\ e1 < e2 /\ e2 - e1 < e1 - e0 /\
    l2 <= l1 /\ l1 <= l0 /\ (64 <= l0 -> 0 < l2) /\
    (0 < l2 -> l2 < l1 /\ l1 < l0 /\ l1 - l2 < l0 - l1).
Proof.
  intros Hrange Hsamew Hsamel Hfirst Hsecond.
  assert (Hinv : nonNegative (images w0)).
  { unfold nonNegative, ratingsUpTo in *.
    eapply List.Forall_impl; [|exact Hrange]. intros row [Hrow _]. exact Hrow. }
  apply action_applied in Hfirst
    as (zw & zl & winner & loser & Hzw & Hzl & Hne & Hw & Hl & Ht1).
  apply action_applied in Hsecond
    as (zw' & zl' & winner' & loser' & Hzw' & Hzl' & _ & Hw' & Hl' & Ht2).
  rewrite Hsamew, Hzw in Hzw'. rewrite Hsamel, Hzl in Hzl'.
  injection Hzw' as <-. injection Hzl' as <-.
  destruct (ratingOf_written (images w0) zw zl winner loser
              (newWinnerElo (elo winner) (elo loser))
              (newLoserElo (elo winner) (elo loser)) Hne Hw Hl) as [Hr1w Hr1l].
  rewrite <- Ht1 in Hr1w, Hr1l.
  pose proof (ratingOf_find _ _ _ _ Hw' Hr1w) as Hew'.
  pose proof (ratingOf_find _ _ _ _ Hl' Hr1l) as Hel'.
  destruct (ratingOf_written (images w1) zw zl winner' loser'
              (newWinnerElo (elo winner') (elo loser'))
              (newLoserElo (elo winner') (elo loser')) Hne Hw' Hl') as [Hr2w Hr2l].
  rewrite <- Ht2 in Hr2w, Hr2l. rewrite Hew', Hel' in Hr2w, Hr2l.
  pose proof (nonNegative_find _ _ _ Hinv Hw) as Hwpos.
  pose proof (nonNegative_find _ _ _ Hinv Hl) as Hlpos.
  destruct (second_vote_smaller (elo winner) (elo loser) Hwpos Hlpos)
    as (Hup1 & Hup2 & Hless & Hloser & Hl2le & Hl1le & Hrich).
  exists zw, zl, (elo winner), (newWinnerElo (elo winner) (elo loser)),
    (newWinnerElo (newWinnerElo (elo winner) (elo loser))
                  (newLoserElo (elo winner) (elo loser))),
    (elo loser), (newLoserElo (elo winner) (elo loser)),
    (newLoserElo (newWinnerElo (elo winner) (elo loser))
                 (newLoserElo (elo winner) (elo loser))).
  unfold ratingOf at 1 2. rewrite Hw, Hl. simpl option_map.
  repeat (split; [first [assumption | reflexivity]|]).
  exact Hloser.
Qed.

Lemma twoImages_ratingsUpTo : ratingsUpTo 2000 (images twoImages).
Proof. repeat constructor; simpl; lra. Qed.

Lemma repeated_vote_not_idempotent_witness :
  ratingsUpTo 2000 (images twoImages) /\
  exists e0 e1 e2 l0 l1 l2 : R,
    ratingOf (images twoImages) 1 = Some e0 /\
    ratingOf (images twoImages) 2 = Some l0 /\
    ratingOf (images (snd (action voteAB twoImages))) 1 = Some e1 /\
    ratingOf (images (snd (action voteAB twoImages))) 2 = Some l1 /\
    ratingOf (images (snd (action voteABagain (snd (action voteAB twoImages))))) 1
    = Some e2 /\
    ratingOf (images (snd (action voteABagain (snd (action voteAB twoImages))))) 2
    = Some l2 /\
    e2 - e1 < e1 - e0 /\ l2 < l1 /\ l1 < l0 /\ l1 - l2 < l0 - l1.
Proof.
  split; [exact twoImages_ratingsUpTo|].
  destruct (repeated_vote_not_idempotent voteAB voteABagain twoImages
              (snd (action voteAB twoImages))
              (snd (action voteABagain (snd (action voteAB twoImages))))
              "uuid-1"%string "uuid-1"%string twoImages_ratingsUpTo
              eq_refl eq_refl eq_refl eq_refl)
    as (zw & zl & e0 & e1 & e2 & l0 & l1 & l2 & Hzw & Hzl & H0 & Hl0 & H1 & Hl1
        & H2 & Hl2 & _ & _ & _ & _ & _ & _ & Hdelta & _ & _ & Hrich & Hloser).
  injection Hzw as <-. injection Hzl as <-.
  exists e0, e1, e2, l0, l1, l2.
  assert (Hstart : l0 = 1200) by (injection Hl0 as <-; reflexivity).
  destruct (Hloser (Hrich ltac:(rewrite Hstart; lra))) as (Hd1 & Hd2 & Hd3).
  repeat (split; [assumption|]). assumption.
Defined.

End EloClaims.

(** ** The claims about the outcome of a vote *)

Section VoteClaims.

(** C10. A vote that is applied writes the [elo] of the rows whose id is
    the winner's or the loser's and nothing else: the listing of the table
    keeps its length and pairs every row with its new version, every row
    keeps its id, name and url, and a row with another id is unchanged. *)
Theorem vote_writes_only_two_ratings (rq : request) (w w' : world) (sid : string) :
  action rq w = (Returned sid, w') ->
  exists zw zl,
    asInteger (winnerId rq) = Some zw /\ asInteger (loserId rq) = Some zl /\
    length (images w') = length (images w) /\
    forall (i : nat) (row : image),
      nth_error (images w) i = Some row ->
      exists row',
        nth_error (images w') i = Some row' /\
        id row' = id row /\ name row' = name row /\ url row' = url row /\
        (id row <> zw -> id row <> zl -> row' = row).
Proof.
  intros Hret.
  apply action_applied in Hret
    as (zw & zl & winner & loser & Hzw & Hzl & _ & _ & _ & ->).
  exists zw, zl. split; [exact Hzw|]. split; [exact Hzl|].
  split; [now rewrite !List.length_map|].
  intros i row Hrow.
  eexists. split.
  - rewrite !List.nth_error_map, Hrow. reflexivity.
  - rewrite !withElo_id, !withElo_name, !withElo_url.
    repeat split; try reflexivity.
    intros Hnw Hnl. rewrite (withElo_other zw _ row Hnw).
    apply withElo_other. exact Hnl.
Qed.

Lemma vote_writes_only_two_ratings_witness :
  action voteAB twoImages = (Returned "uuid-1"%string, snd (action voteAB twoImages)) /\
  length (images (snd (action voteAB twoImages))) = length (images twoImages).
Proof.
  assert (Hret : action voteAB twoImages
                 = (Returned "uuid-1"%string, snd (action voteAB twoImages)))
    by reflexivity.
  split; [exact Hret|].
  destruct (vote_writes_only_two_ratings _ _ _ _ Hret) as (zw & zl & _ & _ & Hlen & _).
  exact Hlen.
Defined.

(** A vote that throws leaves the table as it was. *)
Lemma action_Threw_keeps_table (rq : request) (w : world) (e : thrown) :
  fst (action rq w) = Threw e -> images (snd (action rq w)) = images w.
Proof.
  intros Hthrew.
  destruct (action_cases rq w) as [[sid Hret] | (e' & _ & Hsame)]; [|exact Hsame].
  rewrite Hret in Hthrew. discriminate Hthrew.
Qed.

(** C8, on the code. A vote whose loser id no row has throws "Images not
    found" inside the [try]; the [catch] replaces it, so the handler ends
    with the same generic error as when the store rejects the transaction
    of a vote on two existing rows.  In both cases the table is unchanged
    and the error is thrown on. *)
Theorem not_found_ends_as_generic_failure :
  tryVote voteMissing (images twoImages) = inl ImagesNotFound /\
  tryVote voteCommitFails (images twoImages) = inl StoreRejected /\
  fst (action voteMissing twoImages)
    = Threw (Error "Failed to update ratings. Please try again.") /\
  fst (action voteMissing twoImages) = fst (action voteCommitFails twoImages) /\
  images (snd (action voteMissing twoImages)) = images twoImages /\
  images (snd (action voteCommitFails twoImages)) = images twoImages.
Proof. repeat split; reflexivity. Qed.

(** C9, as worded, fails for the winner id 1.5 with the loser id 2: 1.5 is
    no identifier, yet the validation lets it pass, a timestamp is
    recorded in both rate-limit maps, and the handler ends with the
    generic failure of its [catch]. *)
Lemma fraction_id_not_rejected_as_invalid :
  wellFormedIdentifier (winnerId voteFraction) = false /\
  ~ rejectedAsInvalid voteFraction twoImages /\
  fst (action voteFraction twoImages)
    = Threw (Error "Failed to update ratings. Please try again.") /\
  bucketRequests "unknown" (rateLimitMap (limits (snd (action voteFraction twoImages))))
    = [1000] /\
  bucketRequests "uuid-1" (sessionRateLimitMap (limits (snd (action voteFraction twoImages))))
    = [1000].
Proof.
  assert (Hfst : fst (action voteFraction twoImages)
                 = Threw (Error "Failed to update ratings. Please try again."))
    by reflexivity.
  split; [reflexivity|]. split.
  - unfold rejectedAsInvalid. intros Hrej. rewrite Hrej in Hfst. discriminate Hfst.
  - split; [exact Hfst|]. split; reflexivity.
Qed.

(** C9, amended. A vote whose two ids are equal under [===], or one of
    whose ids is [NaN], ends with the error "Invalid image IDs" before
    anything is touched: the table and both rate-limit maps are the ones
    the handler started from. *)
Theorem invalid_ids_rejected_before_mutation (rq : request) (w : world) :
  isNaN (winnerId rq) = true \/ isNaN (loserId rq) = true
    \/ strictEq (winnerId rq) (loserId rq) = true ->
  action rq w = (Threw (Error "Invalid image IDs"), w).
Proof.
  intros Hbad. unfold action.
  assert (Hcheck : isNaN (winnerId rq) || isNaN (loserId rq)
                   || strictEq (winnerId rq) (loserId rq) = true).
  { destruct Hbad as [-> | [-> | ->]];
      rewrite ?orb_true_r, ?orb_true_l; reflexivity. }
  rewrite Hcheck. reflexivity.
Qed.

Lemma invalid_ids_rejected_before_mutation_witness :
  strictEq (winnerId voteSelf) (loserId voteSelf) = true /\
  action voteSelf twoImages = (Threw (Error "Invalid image IDs"), twoImages).
Proof.
  split; [reflexivity|].
  apply (invalid_ids_rejected_before_mutation voteSelf twoImages).
  right. right. reflexivity.
Defined.

End VoteClaims.

(** ** Properties of the redraw loop *)

Section Sampler.

Variable random : nat -> Q.

Lemma randomOffset_range (r : Q) (totalImages : Z) :
  (0 <= r)%Q -> (r < 1)%Q -> 0 < totalImages ->
  0 <= randomOffset r totalImages < totalImages.
Proof.
  intros Hlo Hhi Hpos. unfold randomOffset.
  assert (HN : (0 < inject_Z totalImages)%Q)
    by (unfold Qlt; simpl; lia).
  split.
  - change 0 with (Qfloor 0). apply Qfloor_resp_le.
    apply Qmult_le_0_compat; [exact Hlo | apply Qlt_le_weak; exact HN].
  - rewrite Zlt_Qlt.
    apply Qle_lt_trans with (r * inject_Z totalImages)%Q; [apply Qfloor_le|].
    rewrite <- (Qmult_1_l (inject_Z totalImages)) at 2.
    apply Qmult_lt_compat_r; assumption.
Qed.

(** The loop stops at the first tested offset that differs from the first
    pick, and not before; [fuel] counts its iterations. *)
Lemma redraw_first_difference (totalImages randomOffset1 : Z) :
  forall (n fuel next : nat) (randomOffset2 : Z),
    (forall j, (j < n)%nat ->
       tested random totalImages next randomOffset2 j = randomOffset1) ->
    tested random totalImages next randomOffset2 n <> randomOffset1 ->
    redraw random totalImages randomOffset1 fuel next randomOffset2
    = if (fuel <? n)%nat then None
      else Some (tested random totalImages next randomOffset2 n).
Proof.
  induction n as [| n IH]; intros fuel next randomOffset2 Hsame Hdiff.
  - simpl in Hdiff. apply Z.eqb_neq in Hdiff.
    destruct fuel; simpl; rewrite Hdiff; reflexivity.
  - pose proof (Hsame 0%nat ltac:(lia)) as Hfirst. simpl in Hfirst.
    apply Z.eqb_eq in Hfirst.
    destruct fuel as [| fuel]; simpl redraw; rewrite Hfirst; [reflexivity|].
    rewrite (IH fuel (S next) (randomOffset (random next) totalImages)).
    + change (S fuel <? S n)%nat with (fuel <? n)%nat.
      destruct (fuel <? n)%nat; [reflexivity|].
      destruct n; simpl; [now rewrite Nat.add_0_r|].
      now rewrite Nat.add_succ_r.
    + intros j Hj. pose proof (Hsame (S j) ltac:(lia)) as Hj'.
      destruct j; simpl in *; [now rewrite Nat.add_0_r in Hj'|].
      now rewrite Nat.add_succ_r in Hj'.
    + destruct n; simpl in *; [now rewrite Nat.add_0_r in Hdiff|].
      now rewrite Nat.add_succ_r in Hdiff.
Qed.

(** While every tested offset collides, no amount of fuel ends the loop. *)
Lemma redraw_stuck (totalImages randomOffset1 : Z) :
  forall (fuel next : nat) (randomOffset2 : Z),
    (forall j, tested random totalImages next randomOffset2 j = randomOffset1) ->
    redraw random totalImages randomOffset1 fuel next randomOffset2 = None.
Proof.
  induction fuel as [| fuel IH]; intros next randomOffset2 Hsame;
    pose proof (Hsame 0%nat) as Hfirst; simpl in Hfirst;
    apply Z.eqb_eq in Hfirst; simpl; rewrite Hfirst; [reflexivity|].
  apply IH. intros j. pose proof (Hsame (S j)) as Hj.
  destruct j; simpl in *; [now rewrite Nat.add_0_r in Hj|].
  now rewrite Nat.add_succ_r in Hj.
Qed.

(** A tested offset that differs within reach of the fuel ends the loop. *)
Lemma redraw_enough (totalImages randomOffset1 : Z) :
  forall (n fuel next : nat) (randomOffset2 : Z),
    tested random totalImages next randomOffset2 n <> randomOffset1 ->
    (n <= fuel)%nat ->
    redraw random totalImages randomOffset1 fuel next randomOffset2 <> None.
Proof.
  induction n as [| n IH]; intros fuel next randomOffset2 Hdiff Hfuel.
  - simpl in Hdiff. apply Z.eqb_neq in Hdiff.
    destruct fuel; simpl; rewrite Hdiff; discriminate.
  - destruct fuel as [| fuel]; [lia|]. simpl redraw.
    destruct (randomOffset2 =? randomOffset1); [|discriminate].
    apply (IH fuel (S next) (randomOffset (random next) totalImages)); [|lia].
    destruct n; simpl in *; [now rewrite Nat.add_0_r in Hdiff|].
    now rewrite Nat.add_succ_r in Hdiff.
Qed.

(** What the loop returns differs from the first pick and is the offset
    it started with or the offset of a draw. *)
Lemma redraw_Some (totalImages randomOffset1 : Z) :
  forall (fuel next : nat) (randomOffset2 o : Z),
    redraw random totalImages randomOffset1 fuel next randomOffset2 = Some o ->
    o <> randomOffset1 /\
    exists j, o = tested random totalImages next randomOffset2 j.
Proof.
  induction fuel as [| fuel IH]; intros next randomOffset2 o; simpl;
    destruct (randomOffset2 =? randomOffset1) eqn:Hcmp; intros Hret;
    try discriminate Hret.
  - injection Hret as <-. apply Z.eqb_neq in Hcmp. split; [exact Hcmp|].
    exists 0%nat. reflexivity.
  - apply IH in Hret as [Hne [j ->]]. split; [exact Hne|].
    exists (S j). destruct j; simpl; [now rewrite Nat.add_0_r|].
    now rewrite Nat.add_succ_r.
  - injection Hret as <-. apply Z.eqb_neq in Hcmp. split; [exact Hcmp|].
    exists 0%nat. reflexivity.
Qed.

(** The offsets the loop of [loader] tests are those of the draws 1, 2, ... *)
Lemma tested_loader (totalImages : Z) (j : nat) :
  tested random totalImages 2 (randomOffset (random 1%nat) totalImages) j
  = randomOffset (random (S j)) totalImages.
Proof. destruct j; reflexivity. Qed.

End Sampler.

Section SamplerClaims.

(** Fuel that runs out before the first difference leaves the loop
    running. *)
Lemma redraw_short (random : nat -> Q) (totalImages randomOffset1 : Z) :
  forall (fuel n next : nat) (randomOffset2 : Z),
    (forall j, (j < n)%nat ->
       tested random totalImages next randomOffset2 j = randomOffset1) ->
    (fuel < n)%nat ->
    redraw random totalImages randomOffset1 fuel next randomOffset2 = None.
Proof.
  induction fuel as [| fuel IH]; intros n next randomOffset2 Hsame Hfuel;
    pose proof (Hsame 0%nat ltac:(lia)) as Hfirst; simpl in Hfirst;
    apply Z.eqb_eq in Hfirst; simpl; rewrite Hfirst; [reflexivity|].
  destruct n as [| n]; [lia|].
  apply (IH n); [|lia].
  intros j Hj. pose proof (Hsame (S j) ltac:(lia)) as Hj'.
  destruct j; simpl in *; [now rewrite Nat.add_0_r in Hj'|].
  now rewrite Nat.add_succ_r in Hj'.
Qed.

Lemma lateRandom_unit (n : nat) : unitDraws (lateRandom n).
Proof.
  intros i. unfold lateRandom. destruct (i <? n + 2)%nat; split; first [reflexivity | discriminate].
Qed.

(** C5, on the code. The two [findFirst] queries carry no [orderBy], so
    each meets the rows in an order of the store's choosing.  On a table of
    two rows, when the query at offset 0 meets them as (B, A) and the query
    at offset 1 as (A, B), the two different offsets resolve to the same
    row: the sampler returns image B twice. *)
Theorem sampler_returns_one_image_twice :
  Permutation heapOrder (images twoImages) /\
  Permutation idOrder (images twoImages) /\
  randomOffset (lateRandom 0 0%nat) 2 = 0 /\ randomOffset (lateRandom 0 2%nat) 2 = 1 /\
  loader (lateRandom 0) 1 (images twoImages) heapOrder idOrder = Returned (imageB, imageB).
Proof.
  split; [apply perm_swap|]. split; [reflexivity|]. repeat split; reflexivity.
Qed.

(** C6, as worded, fails for a generator that always draws 0 on a table
    of two rows: both offsets are 0 at every attempt, nothing bounds the
    attempts and no scan replaces them, so no amount of fuel makes the
    sampler end. *)
Lemma sampler_never_ends_when_stuck :
  unitDraws stuckRandom /\
  ~ (exists fuel scanA scanB,
        loader stuckRandom fuel (images twoImages) scanA scanB <> OutOfFuel).
Proof.
  split; [intros i; split; first [reflexivity | discriminate]|].
  intros (fuel & scanA & scanB & Hends). apply Hends.
  unfold loader. change (count (images twoImages)) with 2. simpl (2 <? 2). cbv iota.
  rewrite redraw_stuck; [reflexivity|].
  intros j. rewrite tested_loader. reflexivity.
Qed.

(** C6, amended. When the two offsets collide the second one is drawn
    again until it differs from the first, with no bound on the attempts
    and no fallback: while the draws 1 to n all collide the loop is still
    running after fewer than n iterations; if the next draw differs the
    loop ends at that draw, after exactly n iterations, and the rows at
    the two offsets are returned; and if every draw collides the sampler
    never ends.  This holds whatever the orders in which the two queries
    meet the rows. *)
Theorem sampler_redraws_until_different
    (random : nat -> Q) (table scanA scanB : list image) (n : nat) :
  2 <= count table ->
  (forall i, (1 <= i <= n)%nat -> collides random (count table) i) ->
  (forall fuel, (fuel < n)%nat -> loader random fuel table scanA scanB = OutOfFuel) /\
  (~ collides random (count table) (S n) ->
   forall fuel, (n <= fuel)%nat ->
     loader random fuel table scanA scanB =
     match findFirst scanA (randomOffset (random 0%nat) (count table)),
           findFirst scanB (randomOffset (random (S n)) (count table)) with
     | Some imageA, Some imageB => Returned (imageA, imageB)
     | _, _ => Threw (Error "Failed to load images")
     end) /\
  ((forall i, (1 <= i)%nat -> collides random (count table) i) ->
   forall fuel, loader random fuel table scanA scanB = OutOfFuel).
Proof.
  intros Hcount Hsame.
  assert (Hge : (count table <? 2) = false) by (apply Z.ltb_ge; exact Hcount).
  assert (Htested : forall j, (j < n)%nat ->
            tested random (count table) 2 (randomOffset (random 1%nat) (count table)) j
            = randomOffset (random 0%nat) (count table)).
  { intros j Hj. rewrite tested_loader. apply Hsame. lia. }
  split; [|split].
  - intros fuel Hfuel. unfold loader. rewrite Hge.
    rewrite (redraw_short random _ _ fuel n); [reflexivity | exact Htested | exact Hfuel].
  - intros Hdiff fuel Hfuel. unfold loader. rewrite Hge.
    rewrite (redraw_first_difference random _ _ n fuel);
      [| exact Htested | rewrite tested_loader; exact Hdiff].
    assert (Hnot : (fuel <? n)%nat = false) by (apply Nat.ltb_ge; exact Hfuel).
    rewrite Hnot, tested_loader. reflexivity.
  - intros Hall fuel. unfold loader. rewrite Hge.
    rewrite redraw_stuck; [reflexivity|].
    intros j. rewrite tested_loader. apply Hall. lia.
Qed.

Lemma sampler_redraws_until_different_witness :
  2 <= count (images twoImages) /\
  loader (lateRandom 3) 3 (images twoImages) (images twoImages) (images twoImages)
  = OutOfFuel /\
  loader (lateRandom 3) 4 (images twoImages) (images twoImages) (images twoImages)
  = Returned (imageA, imageB).
Proof.
  assert (Hcount : 2 <= count (images twoImages)) by (change (2 <= 2); lia).
  assert (Hsame : forall i, (1 <= i <= 4)%nat ->
            collides (lateRandom 3) (count (images twoImages)) i).
  { intros i Hi.
    assert (Hcases : i = 1%nat \/ i = 2%nat \/ i = 3%nat \/ i = 4%nat) by lia.
    destruct Hcases as [-> | [-> | [-> | ->]]]; reflexivity. }
  destruct (sampler_redraws_until_different (lateRandom 3) (images twoImages)
              (images twoImages) (images twoImages) 4 Hcount Hsame)
    as (Hshort & Hends & _).
  split; [exact Hcount|]. split.
  - apply Hshort. lia.
  - rewrite Hends; [reflexivity | discriminate | lia].
Defined.

End SamplerClaims.

(** ** Properties of the limiter step *)

Section LimiterFacts.

Variables (window maxIP maxSession : Z).

Implicit Types (m : gmap string bucket) (maps : rateLimits) (key : string).

Lemma getBucket_ensure (t : Z) key m :
  requests (getBucket t key (ensure t key m)) = bucketRequests key m.
Proof.
  unfold getBucket, ensure, bucketRequests.
  destruct (m !! key) as [data|] eqn:Hkey.
  - now rewrite Hkey.
  - now rewrite lookup_insert_eq.
Qed.

Lemma bucketRequests_ensure (t : Z) key key' m :
  bucketRequests key' (ensure t key m) = bucketRequests key' m.
Proof.
  unfold ensure, bucketRequests.
  destruct (m !! key) as [data|] eqn:Hkey; [reflexivity|].
  destruct (decide (key = key')) as [<- | Hne].
  - now rewrite lookup_insert_eq, Hkey.
  - now rewrite lookup_insert_ne.
Qed.

Lemma bucketRequests_insert key m (data : bucket) :
  bucketRequests key (<[key := data]> m) = requests data.
Proof. unfold bucketRequests. now rewrite lookup_insert_eq. Qed.

Lemma bucketRequests_insert_ne key key' m (data : bucket) :
  key <> key' -> bucketRequests key' (<[key := data]> m) = bucketRequests key' m.
Proof. intros Hne. unfold bucketRequests. now rewrite lookup_insert_ne. Qed.

(** At a maximum the limiter throws its 429 response and records nothing. *)
Lemma rateLimit_throttled (t : Z) (clientIP sessionId : string) maps :
  maxIP <= Z.of_nat (length (counted window t clientIP (rateLimitMap maps))) \/
  maxSession <= Z.of_nat (length (counted window t sessionId (sessionRateLimitMap maps))) ->
  throttled (fst (rateLimit window maxIP maxSession t clientIP sessionId maps)) /\
  forall key,
    bucketRequests key
      (rateLimitMap (snd (rateLimit window maxIP maxSession t clientIP sessionId maps)))
    = bucketRequests key (rateLimitMap maps) /\
    bucketRequests key
      (sessionRateLimitMap (snd (rateLimit window maxIP maxSession t clientIP sessionId maps)))
    = bucketRequests key (sessionRateLimitMap maps).
Proof.
  unfold counted, rateLimit. rewrite !getBucket_ensure. intros Hmax.
  destruct (Z.of_nat (length (recent window t
              (bucketRequests clientIP (rateLimitMap maps)))) >=? maxIP) eqn:Hip.
  - simpl. split; [eexists; reflexivity|].
    intros key. now rewrite bucketRequests_ensure.
  - destruct (Z.of_nat (length (recent window t
                (bucketRequests sessionId (sessionRateLimitMap maps)))) >=? maxSession)
      eqn:Hsession.
    + simpl. split; [eexists; reflexivity|].
      intros key. now rewrite !bucketRequests_ensure.
    + lia.
Qed.

(** Below both maxima the limiter lets the request pass and appends its
    time to the recent timestamps of both buckets, and to no other. *)
Lemma rateLimit_allowed (t : Z) (clientIP sessionId : string) maps :
  Z.of_nat (length (counted window t clientIP (rateLimitMap maps))) < maxIP ->
  Z.of_nat (length (counted window t sessionId (sessionRateLimitMap maps))) < maxSession ->
  let after := snd (rateLimit window maxIP maxSession t clientIP sessionId maps) in
  fst (rateLimit window maxIP maxSession t clientIP sessionId maps) = None /\
  bucketRequests clientIP (rateLimitMap after)
    = counted window t clientIP (rateLimitMap maps) ++ [t] /\
  bucketRequests sessionId (sessionRateLimitMap after)
    = counted window t sessionId (sessionRateLimitMap maps) ++ [t] /\
  (forall key, key <> clientIP ->
     bucketRequests key (rateLimitMap after) = bucketRequests key (rateLimitMap maps)) /\
  (forall key, key <> sessionId ->
     bucketRequests key (sessionRateLimitMap after)
     = bucketRequests key (sessionRateLimitMap maps)).
Proof.
  unfold counted, rateLimit. rewrite !getBucket_ensure. intros Hip Hsession.
  destruct (Z.of_nat (length (recent window t
              (bucketRequests clientIP (rateLimitMap maps)))) >=? maxIP) eqn:Hip';
    [lia|].
  destruct (Z.of_nat (length (recent window t
              (bucketRequests sessionId (sessionRateLimitMap maps)))) >=? maxSession)
    eqn:Hsession'; [lia|].
  simpl. rewrite !bucketRequests_insert. simpl.
  repeat split; try reflexivity.
  - intros key Hne. rewrite bucketRequests_insert_ne by congruence.
    apply bucketRequests_ensure.
  - intros key Hne. rewrite bucketRequests_insert_ne by congruence.
    apply bucketRequests_ensure.
Qed.

Lemma recent_all (t : Z) (reqs : list Z) :
  Forall (fun time => t - time < window) reqs -> recent window t reqs = reqs.
Proof.
  unfold recent. induction 1 as [| time rest Htime _ IH]; [reflexivity|].
  rewrite filter_cons_True by exact Htime. now rewrite IH.
Qed.

Lemma recent_none (t : Z) (reqs : list Z) :
  Forall (fun time => window <= t - time) reqs -> recent window t reqs = [].
Proof.
  unfold recent. induction 1 as [| time rest Htime _ IH]; [reflexivity|].
  rewrite filter_cons_False by lia. exact IH.
Qed.

End LimiterFacts.

Section LimiterClaims.

(** A cleanup at a time not after [t] removes no timestamp a check at [t]
    counts. *)
Lemma cleanupEntry_counted (t cleanupTime : Z) (data : bucket) :
  cleanupTime <= t ->
  recent windowMs t (from_option requests [] (cleanupEntry cleanupTime data))
  = recent windowMs t (requests data).
Proof.
  intros Hlater. unfold cleanupEntry.
  destruct (cleanupTime - lastCleanup data >? cleanupInterval); [|reflexivity].
  assert (Hkept : recent windowMs t
                    (filter (fun time => cleanupTime - time < 60 * 1000) (requests data))
                  = recent windowMs t (requests data)).
  { unfold recent, windowMs. induction (requests data) as [| time rest IH]; [reflexivity|].
    destruct (decide (t - time < 60 * 1000)) as [Hin | Hout].
    - rewrite (filter_cons_True (fun time => cleanupTime - time < 60 * 1000)) by lia.
      rewrite !(filter_cons_True (fun time => t - time < 60 * 1000)) by exact Hin.
      now rewrite IH.
    - rewrite (filter_cons_False (fun time => t - time < 60 * 1000) time rest) by exact Hout.
      destruct (decide (cleanupTime - time < 60 * 1000)) as [Hin' | Hout'].
      + rewrite (filter_cons_True (fun time => cleanupTime - time < 60 * 1000)) by exact Hin'.
        rewrite (filter_cons_False (fun time => t - time < 60 * 1000)) by exact Hout.
        exact IH.
      + rewrite (filter_cons_False (fun time => cleanupTime - time < 60 * 1000))
          by exact Hout'.
        exact IH. }
  destruct (Nat.eqb (length (filter (fun time => cleanupTime - time < 60 * 1000)
                                  (requests data))) 0) eqn:Hempty; simpl; [|exact Hkept].
  apply Nat.eqb_eq, length_zero_iff_nil in Hempty.
  rewrite Hempty in Hkept. exact Hkept.
Qed.

Lemma cleanup_counted (t cleanupTime : Z) (key : string) (m : gmap string bucket) :
  cleanupTime <= t ->
  counted windowMs t key (omap (cleanupEntry cleanupTime) m) = counted windowMs t key m.
Proof.
  intros Hlater. unfold counted, bucketRequests. rewrite lookup_omap.
  destruct (m !! key) as [data|]; simpl; [|reflexivity].
  rewrite <- (cleanupEntry_counted t cleanupTime data Hlater).
  destruct (cleanupEntry cleanupTime data); reflexivity.
Qed.

Lemma action_valid (rq : request) (w : world) :
  validIds rq = true ->
  action rq w =
  match rateLimit windowMs maxRequestsPerIP maxRequestsPerSession
          (now rq) (clientIPOf rq) (sessionIdOf rq) (maybeCleanup rq (limits w)) with
  | (Some response, maps') => (Threw response, mkWorld maps' (images w))
  | (None, maps') =>
      match tryVote rq (images w) with
      | inr table' => (Returned (sessionIdOf rq), mkWorld maps' table')
      | inl error => (Threw (rethrow error), mkWorld maps' (images w))
      end
  end.
Proof.
  unfold validIds, action. intros Hvalid. apply negb_true_iff in Hvalid.
  now rewrite Hvalid.
Qed.

(** A request of an identity all of whose recorded timestamps are recent
    and fewer than both maxima passes and is recorded after them. *)
Lemma rateLimit_appends
    (window maxIP maxSession t : Z) (clientIP sessionId : string) (maps : rateLimits)
    (ipTimes sessionTimes : list Z) :
  bucketRequests clientIP (rateLimitMap maps) = ipTimes ->
  bucketRequests sessionId (sessionRateLimitMap maps) = sessionTimes ->
  Forall (fun time => t - time < window) ipTimes ->
  Forall (fun time => t - time < window) sessionTimes ->
  Z.of_nat (length ipTimes) < maxIP ->
  Z.of_nat (length sessionTimes) < maxSession ->
  fst (rateLimit window maxIP maxSession t clientIP sessionId maps) = None /\
  bucketRequests clientIP
    (rateLimitMap (snd (rateLimit window maxIP maxSession t clientIP sessionId maps)))
  = ipTimes ++ [t] /\
  bucketRequests sessionId
    (sessionRateLimitMap (snd (rateLimit window maxIP maxSession t clientIP sessionId maps)))
  = sessionTimes ++ [t].
Proof.
  intros Hip Hsession Hiprecent Hsessionrecent Hipmax Hsessionmax.
  destruct (rateLimit_allowed window maxIP maxSession t clientIP sessionId maps)
    as (Hverdict & Hip' & Hsession' & _).
  - unfold counted. rewrite Hip, recent_all by exact Hiprecent. exact Hipmax.
  - unfold counted. rewrite Hsession, recent_all by exact Hsessionrecent.
    exact Hsessionmax.
  - unfold counted in Hip', Hsession'.
    rewrite Hip, recent_all in Hip' by exact Hiprecent.
    rewrite Hsession, recent_all in Hsession' by exact Hsessionrecent.
    repeat split; assumption.
Qed.

(** Four requests of one fresh identity within one window, and a fifth one
    after the window of the last recorded one has passed, under a limiter
    whose smaller maximum is 3. *)
Lemma fourth_in_window_is_throttled
    (window maxIP maxSession : Z) (clientIP sessionId : string) (maps : rateLimits)
    (t1 t2 t3 t4 t5 : Z) :
  Z.min maxIP maxSession = 3 ->
  bucketRequests clientIP (rateLimitMap maps) = [] ->
  bucketRequests sessionId (sessionRateLimitMap maps) = [] ->
  t1 <= t2 <= t3 -> t3 <= t4 -> t4 - t1 < window -> window <= t5 - t3 ->
  let step t m := rateLimit window maxIP maxSession t clientIP sessionId m in
  let s1 := step t1 maps in
  let s2 := step t2 (snd s1) in
  let s3 := step t3 (snd s2) in
  let s4 := step t4 (snd s3) in
  let s5 := step t5 (snd s4) in
  fst s1 = None /\ fst s2 = None /\ fst s3 = None /\ throttled (fst s4) /\ fst s5 = None.
Proof.
  intros Hmax Hip Hsession Horder H34 Hwithin Hafter. cbv zeta.
  destruct (rateLimit_appends window maxIP maxSession t1 clientIP sessionId maps [] []
              Hip Hsession) as (Hv1 & Hip1 & Hse1);
    [constructor | constructor | cbn [length]; lia | cbn [length]; lia |].
  set (m1 := snd (rateLimit window maxIP maxSession t1 clientIP sessionId maps)) in *.
  clearbody m1.
  destruct (rateLimit_appends window maxIP maxSession t2 clientIP sessionId m1 [t1] [t1]
              Hip1 Hse1) as (Hv2 & Hip2 & Hse2);
    [repeat constructor; lia | repeat constructor; lia
     | cbn [length]; lia | cbn [length]; lia |].
  set (m2 := snd (rateLimit window maxIP maxSession t2 clientIP sessionId m1)) in *.
  clearbody m2.
  destruct (rateLimit_appends window maxIP maxSession t3 clientIP sessionId m2
              [t1; t2] [t1; t2] Hip2 Hse2) as (Hv3 & Hip3 & Hse3);
    [repeat constructor; lia | repeat constructor; lia
     | cbn [length]; lia | cbn [length]; lia |].
  set (m3 := snd (rateLimit window maxIP maxSession t3 clientIP sessionId m2)) in *.
  clearbody m3.
  assert (Hall : Forall (fun time => t4 - time < window) [t1; t2; t3])
    by (repeat constructor; lia).
  destruct (rateLimit_throttled window maxIP maxSession t4 clientIP sessionId m3)
    as (Hv4 & Hsame4).
  { unfold counted. change ([t1; t2] ++ [t3]) with [t1; t2; t3] in Hip3, Hse3.
    rewrite Hip3, Hse3, !recent_all by exact Hall. cbn [length]. lia. }
  set (m4 := snd (rateLimit window maxIP maxSession t4 clientIP sessionId m3)) in *.
  destruct (Hsame4 clientIP) as [Hip4 _]. destruct (Hsame4 sessionId) as [_ Hse4].
  clearbody m4. rewrite Hip3 in Hip4. rewrite Hse3 in Hse4.
  assert (Hold : Forall (fun time => window <= t5 - time) ([t1; t2] ++ [t3]))
    by (repeat constructor; lia).
  destruct (rateLimit_allowed window maxIP maxSession t5 clientIP sessionId m4)
    as (Hv5 & _).
  { unfold counted. rewrite Hip4, recent_none by exact Hold. cbn [length]. lia. }
  { unfold counted. rewrite Hse4, recent_none by exact Hold. cbn [length]. lia. }
  repeat split; assumption.
Qed.

Lemma maybeCleanup_counted (rq : request) (maps : rateLimits) (key : string) :
  cleanupNow rq <= now rq ->
  counted windowMs (now rq) key (rateLimitMap (maybeCleanup rq maps))
  = counted windowMs (now rq) key (rateLimitMap maps) /\
  counted windowMs (now rq) key (sessionRateLimitMap (maybeCleanup rq maps))
  = counted windowMs (now rq) key (sessionRateLimitMap maps).
Proof.
  intros Hclock. unfold maybeCleanup.
  destruct (negb (Qle_bool (1 # 10) (cleanupDraw rq))); [|split; reflexivity].
  unfold cleanupRateLimit. simpl rateLimitMap. simpl sessionRateLimitMap.
  split; apply cleanup_counted; exact Hclock.
Qed.

(** C7. A vote request whose ids pass the validation is rejected with the
    429 response exactly when the recorded timestamps of its client IP
    within the trailing 60 seconds number at least 30, or those of its
    session at least 20; a rejected request records nothing; any other
    request has its time appended to the recent timestamps of both its
    buckets.  A cleanup that read the clock no later than the request does
    not change what is counted.  For a limiter whose smaller maximum is 3,
    the fourth of four requests of a fresh identity within one window is
    rejected after three that pass, and a request made once the window has
    passed since the last recorded one passes again. *)
Theorem vote_throttled_exactly_at_maximum (rq : request) (w : world) :
  validIds rq = true ->
  let maps := maybeCleanup rq (limits w) in
  let ipTimes := counted windowMs (now rq) (clientIPOf rq) (rateLimitMap maps) in
  let sessionTimes :=
    counted windowMs (now rq) (sessionIdOf rq) (sessionRateLimitMap maps) in
  let after := limits (snd (action rq w)) in
  (rateLimited (fst (action rq w)) <->
   30 <= Z.of_nat (length ipTimes) \/ 20 <= Z.of_nat (length sessionTimes)) /\
  (rateLimited (fst (action rq w)) ->
   forall key,
     bucketRequests key (rateLimitMap after) = bucketRequests key (rateLimitMap maps) /\
     bucketRequests key (sessionRateLimitMap after)
     = bucketRequests key (sessionRateLimitMap maps)) /\
  (~ rateLimited (fst (action rq w)) ->
   bucketRequests (clientIPOf rq) (rateLimitMap after) = ipTimes ++ [now rq] /\
   bucketRequests (sessionIdOf rq) (sessionRateLimitMap after)
   = sessionTimes ++ [now rq]) /\
  (cleanupNow rq <= now rq ->
   ipTimes = counted windowMs (now rq) (clientIPOf rq) (rateLimitMap (limits w)) /\
   sessionTimes
   = counted windowMs (now rq) (sessionIdOf rq) (sessionRateLimitMap (limits w))) /\
  (forall (window maxIP maxSession : Z) (clientIP sessionId : string)
          (fresh : rateLimits) (t1 t2 t3 t4 t5 : Z),
     Z.min maxIP maxSession = 3 ->
     bucketRequests clientIP (rateLimitMap fresh) = [] ->
     bucketRequests sessionId (sessionRateLimitMap fresh) = [] ->
     t1 <= t2 <= t3 -> t3 <= t4 -> t4 - t1 < window -> window <= t5 - t3 ->
     let step t m := rateLimit window maxIP maxSession t clientIP sessionId m in
     let s1 := step t1 fresh in
     let s2 := step t2 (snd s1) in
     let s3 := step t3 (snd s2) in
     let s4 := step t4 (snd s3) in
     let s5 := step t5 (snd s4) in
     fst s1 = None /\ fst s2 = None /\ fst s3 = None /\
     throttled (fst s4) /\ fst s5 = None).
Proof.
  intros Hvalid maps ipTimes sessionTimes after.
  assert (Hdecide :
    (30 <= Z.of_nat (length ipTimes) \/ 20 <= Z.of_nat (length sessionTimes)) \/
    (Z.of_nat (length ipTimes) < 30 /\ Z.of_nat (length sessionTimes) < 20)) by lia.
  assert (Hcases :
    ((30 <= Z.of_nat (length ipTimes) \/ 20 <= Z.of_nat (length sessionTimes)) /\
     rateLimited (fst (action rq w)) /\
     forall key,
       bucketRequests key (rateLimitMap after) = bucketRequests key (rateLimitMap maps) /\
       bucketRequests key (sessionRateLimitMap after)
       = bucketRequests key (sessionRateLimitMap maps)) \/
    ((Z.of_nat (length ipTimes) < 30 /\ Z.of_nat (length sessionTimes) < 20) /\
     ~ rateLimited (fst (action rq w)) /\
     bucketRequests (clientIPOf rq) (rateLimitMap after) = ipTimes ++ [now rq] /\
     bucketRequests (sessionIdOf rq) (sessionRateLimitMap after)
     = sessionTimes ++ [now rq])).
  { unfold after. rewrite (action_valid rq w Hvalid). fold maps.
    destruct Hdecide as [Hmax | [Hip Hsession]].
    - left. split; [exact Hmax|].
      destruct (rateLimit_throttled windowMs maxRequestsPerIP maxRequestsPerSession
                  (now rq) (clientIPOf rq) (sessionIdOf rq) maps Hmax)
        as [[body Hbody] Hsame].
      destruct (rateLimit _ _ _ _ _ _ maps) as [verdict maps'].
      simpl in Hbody, Hsame. subst verdict. split; [exists body; reflexivity|].
      exact Hsame.
    - right. split; [split; assumption|].
      destruct (rateLimit_allowed windowMs maxRequestsPerIP maxRequestsPerSession
                  (now rq) (clientIPOf rq) (sessionIdOf rq) maps Hip Hsession)
        as (Hverdict & Hip' & Hsession' & _).
      destruct (rateLimit _ _ _ _ _ _ maps) as [verdict maps'].
      simpl in Hverdict, Hip', Hsession'. subst verdict.
      destruct (tryVote rq (images w)) as [error | table']; simpl.
      + split; [intros [body Hbody]; discriminate Hbody|]. split; assumption.
      + split; [intros [body Hbody]; discriminate Hbody|]. split; assumption. }
  split; [|split; [|split; [|split]]].
  - destruct Hcases as [(Hmax & Hlimited & _) | (Hbelow & Hfree & _)].
    + split; intros _; assumption.
    + split; [intros Hlimited; contradiction | intros Hmax; lia].
  - intros Hlimited.
    destruct Hcases as [(_ & _ & Hsame) | (_ & Hfree & _)]; [exact Hsame | contradiction].
  - intros Hfree.
    destruct Hcases as [(_ & Hlimited & _) | (_ & _ & Hrecorded)];
      [contradiction | exact Hrecorded].
  - intros Hclock. unfold ipTimes, sessionTimes, maps.
    split; apply maybeCleanup_counted; exact Hclock.
  - intros window maxIP maxSession clientIP sessionId fresh t1 t2 t3 t4 t5.
    apply fourth_in_window_is_throttled.
Qed.

Lemma vote_throttled_exactly_at_maximum_witness :
  validIds voteAB = true /\
  ~ rateLimited (fst (action voteAB twoImages)) /\
  bucketRequests "unknown" (rateLimitMap (limits (snd (action voteAB twoImages))))
  = [1000].
Proof.
  assert (Hvalid : validIds voteAB = true) by reflexivity.
  destruct (vote_throttled_exactly_at_maximum voteAB twoImages Hvalid)
    as (Hiff & _ & Hrecorded & _).
  assert (Hfree : ~ rateLimited (fst (action voteAB twoImages))).
  { intros Hlimited. apply Hiff in Hlimited.
    change (30 <= 0 \/ 20 <= 0) in Hlimited. lia. }
  split; [exact Hvalid|]. split; [exact Hfree|].
  exact (proj1 (Hrecorded Hfree)).
Defined.

End LimiterClaims.

(** ** Beyond the claims: the sampler on any table *)

Section SamplerAnyTable.

(** With draws from the unit interval and scans that hold the rows of the
    table, the sampler ends, if it ends, with the row at an offset of the
    first scan and the row at another offset of the second. *)
Lemma loader_shape (random : nat -> Q) (fuel : nat) (table scanA scanB : list image) :
  unitDraws random -> Permutation scanA table -> Permutation scanB table ->
  2 <= count table ->
  loader random fuel table scanA scanB = OutOfFuel \/
  exists i j a b,
    i <> j /\ nth_error scanA i = Some a /\ nth_error scanB j = Some b /\
    loader random fuel table scanA scanB = Returned (a, b).
Proof.
  intros Hunit HscanA HscanB Hcount. unfold loader.
  assert (Hge : (count table <? 2) = false) by (apply Z.ltb_ge; exact Hcount).
  rewrite Hge.
  destruct (redraw random (count table) _ fuel 2 _) as [o|] eqn:Hloop;
    [|left; reflexivity].
  right. apply redraw_Some in Hloop as [Hne [k Hk]]. rewrite tested_loader in Hk.
  destruct (Hunit 0%nat) as [Hlo0 Hhi0]. destruct (Hunit (S k)) as [Hlok Hhik].
  pose proof (randomOffset_range (random 0%nat) (count table) Hlo0 Hhi0 ltac:(lia)) as Hr0.
  pose proof (randomOffset_range (random (S k)) (count table) Hlok Hhik ltac:(lia)) as Hrk.
  rewrite <- Hk in Hrk. clear Hk.
  set (o1 := randomOffset (random 0%nat) (count table)) in *.
  unfold count in Hr0, Hrk.
  apply Permutation_length in HscanA, HscanB.
  assert (H1 : (Z.to_nat o1 < length scanA)%nat) by lia.
  assert (H2 : (Z.to_nat o < length scanB)%nat) by lia.
  apply List.nth_error_Some in H1. apply List.nth_error_Some in H2.
  destruct (nth_error scanA (Z.to_nat o1)) as [a|] eqn:Ha; [|congruence].
  destruct (nth_error scanB (Z.to_nat o)) as [b|] eqn:Hb; [|congruence].
  exists (Z.to_nat o1), (Z.to_nat o), a, b.
  split; [lia|]. split; [exact Ha|]. split; [exact Hb|].
  unfold findFirst.
  assert (Hpos1 : (o1 <? 0) = false) by (apply Z.ltb_ge; lia).
  assert (Hpos2 : (o <? 0) = false) by (apply Z.ltb_ge; lia).
  now rewrite Hpos1, Hpos2, Ha, Hb.
Qed.

(** X1. With draws from the unit interval, and each of the two queries
    meeting the rows of the table in some order: on fewer than two rows the
    sampler throws its "need at least 2 images" error; on two rows or more
    it never throws, whatever it returns are rows of the table, and it does
    return once the fuel reaches a draw whose offset differs from the
    first.  The two rows have different ids when both queries meet the rows
    in the same order and the ids are distinct; nothing in the loader makes
    the two orders agree. *)
Theorem sampler_returns_two_rows_of_the_table
    (random : nat -> Q) (fuel : nat) (table scanA scanB : list image) :
  unitDraws random -> Permutation scanA table -> Permutation scanB table ->
  (count table < 2 ->
   loader random fuel table scanA scanB
   = Threw (Error "Need at least 2 images in database")) /\
  (2 <= count table ->
   (forall e, loader random fuel table scanA scanB <> Threw e) /\
   (forall a b, loader random fuel table scanA scanB = Returned (a, b) ->
      In a table /\ In b table /\
      (scanA = scanB -> uniqueIds table -> id a <> id b)) /\
   (forall n, ~ collides random (count table) (S n) -> (n <= fuel)%nat ->
      exists a b, loader random fuel table scanA scanB = Returned (a, b))).
Proof.
  intros Hunit HscanA HscanB. split.
  { intros Hfew. unfold loader. apply Z.ltb_lt in Hfew. now rewrite Hfew. }
  intros Hcount.
  pose proof (loader_shape random fuel table scanA scanB Hunit HscanA HscanB Hcount)
    as Hshape.
  split; [|split].
  - intros e He.
    destruct Hshape as [Hout | (i & j & a & b & _ & _ & _ & Hret)]; congruence.
  - intros a b Hret.
    destruct Hshape as [Hout | (i & j & a' & b' & Hij & Ha & Hb & Hret')]; [congruence|].
    rewrite Hret in Hret'. injection Hret' as <- <-.
    split; [apply (Permutation_in a HscanA); eapply List.nth_error_In; exact Ha|].
    split; [apply (Permutation_in b HscanB); eapply List.nth_error_In; exact Hb|].
    intros Hsame Hids Heq. subst scanB. apply Hij.
    assert (Hnodup : List.NoDup (List.map id scanA)).
    { unfold uniqueIds in Hids.
      eapply Permutation_NoDup; [|exact Hids].
      apply Permutation_sym, Permutation_map. exact HscanA. }
    rewrite List.NoDup_nth_error in Hnodup. apply Hnodup.
    + rewrite List.length_map. apply List.nth_error_Some. congruence.
    + rewrite !List.nth_error_map, Ha, Hb. simpl. congruence.
  - intros n Hdiff Hfuel.
    destruct Hshape as [Hout | (i & j & a & b & Hij & Ha & Hb & Hret)];
      [|exists a, b; exact Hret].
    exfalso. revert Hout. unfold loader.
    assert (Hge : (count table <? 2) = false) by (apply Z.ltb_ge; exact Hcount).
    rewrite Hge.
    pose proof (redraw_enough random (count table)
                  (randomOffset (random 0%nat) (count table))
                  n fuel 2%nat (randomOffset (random 1%nat) (count table))) as Hloop.
    rewrite tested_loader in Hloop. specialize (Hloop Hdiff Hfuel).
    destruct (redraw random (count table) _ fuel 2 _) as [o|]; [|congruence].
    destruct (findFirst scanA _), (findFirst scanB o); discriminate.
Qed.

Lemma fourImages_uniqueIds : uniqueIds (images fourImages).
Proof. unfold uniqueIds. simpl. repeat constructor; simpl; intuition lia. Qed.

Lemma sampler_returns_two_rows_of_the_table_witness :
  unitDraws (lateRandom 0) /\ 2 <= count (images fourImages) /\
  exists a b,
    loader (lateRandom 0) 1 (images fourImages) (images fourImages) (images fourImages)
    = Returned (a, b) /\ id a <> id b.
Proof.
  assert (Hcount : 2 <= count (images fourImages)) by (change (2 <= 4); lia).
  split; [apply lateRandom_unit|]. split; [exact Hcount|].
  destruct (sampler_returns_two_rows_of_the_table (lateRandom 0) 1 (images fourImages)
              (images fourImages) (images fourImages) (lateRandom_unit 0)
              (Permutation_refl _) (Permutation_refl _)) as [_ Hmany].
  destruct (Hmany Hcount) as (_ & Hrows & Hreturns).
  destruct (Hreturns 1%nat ltac:(discriminate) ltac:(lia)) as (a & b & Hret).
  exists a, b. split; [exact Hret|].
  exact (proj2 (proj2 (Hrows a b Hret)) eq_refl fourImages_uniqueIds).
Defined.

End SamplerAnyTable.

(** ** Beyond the claims: the cleanup and the limiter *)

Section LimiterBeyond.

Implicit Types (m : gmap string bucket) (maps : rateLimits) (key : string).

Lemma cleanupEntry_settled (t : Z) (data data' : bucket) :
  cleanupEntry t data = Some data' -> cleanupEntry t data' = Some data'.
Proof.
  unfold cleanupEntry.
  destruct (t - lastCleanup data >? cleanupInterval) eqn:Hdue.
  - destruct (Nat.eqb _ 0); [intros H; discriminate H|].
    intros [= <-]. simpl.
    assert (Hnot : (t - t >? cleanupInterval) = false) by (rewrite Z.sub_diag; reflexivity).
    now rewrite Hnot.
  - intros [= <-]. now rewrite Hdue.
Qed.

(** X3. Running the cleanup twice at one reading of the clock is the same
    as running it once: what the first run keeps, it has either cleaned (and
    stamped with that time) or found not yet due. *)
Theorem cleanupRateLimit_idempotent (t : Z) maps :
  cleanupRateLimit t (cleanupRateLimit t maps) = cleanupRateLimit t maps.
Proof.
  assert (Hmap : forall m,
            omap (cleanupEntry t) (omap (cleanupEntry t) m) = omap (cleanupEntry t) m).
  { intros m. apply map_eq. intros key. rewrite !lookup_omap.
    destruct (m !! key) as [data|]; simpl; [|reflexivity].
    destruct (cleanupEntry t data) as [data'|] eqn:Hclean; simpl; [|reflexivity].
    exact (cleanupEntry_settled t data data' Hclean). }
  unfold cleanupRateLimit. simpl. now rewrite !Hmap.
Qed.

(** X4. The cleanup deletes a bucket exactly when the bucket is due (its
    last cleanup is more than five minutes old) and none of its timestamps
    is younger than 60 seconds; a bucket that is not due is left exactly as
    it is, and a due bucket that stays keeps precisely its timestamps
    younger than 60 seconds and is stamped with the time of the cleanup. *)
Theorem cleanup_deletes_exactly_expired_buckets (t : Z) m key (data : bucket) :
  m !! key = Some data ->
  (omap (cleanupEntry t) m !! key = None <->
   cleanupInterval < t - lastCleanup data /\
   Forall (fun time => 60 * 1000 <= t - time) (requests data)) /\
  (t - lastCleanup data <= cleanupInterval ->
   omap (cleanupEntry t) m !! key = Some data) /\
  (forall data', omap (cleanupEntry t) m !! key = Some data' ->
     cleanupInterval < t - lastCleanup data ->
     lastCleanup data' = t /\ requests data' <> [] /\
     requests data' = filter (fun time => t - time < 60 * 1000) (requests data)).
Proof.
  intros Hkey. rewrite lookup_omap, Hkey. simpl. unfold cleanupEntry.
  assert (Hempty : forall reqs : list Z,
            filter (fun time => t - time < 60 * 1000) reqs = []
            <-> Forall (fun time => 60 * 1000 <= t - time) reqs).
  { intros reqs. induction reqs as [| time rest IH].
    - split; [constructor | reflexivity].
    - destruct (decide (t - time < 60 * 1000)) as [Hin | Hout].
      + rewrite filter_cons_True by exact Hin. split; [intros H; discriminate H|].
        intros Hall. inversion Hall; subst. lia.
      + rewrite filter_cons_False by exact Hout. rewrite IH. split.
        * intros Hall. constructor; [lia | exact Hall].
        * intros Hall. inversion Hall; subst. assumption. }
  destruct (t - lastCleanup data >? cleanupInterval) eqn:Hdue.
  - apply Z.gtb_lt in Hdue.
    destruct (Nat.eqb (length (filter (fun time => t - time < 60 * 1000)
                                      (requests data))) 0) eqn:Hlen.
    + apply Nat.eqb_eq, length_zero_iff_nil in Hlen.
      split; [|split].
      * split; [intros _; split; [exact Hdue | now apply Hempty] | reflexivity].
      * intros Hnot. lia.
      * intros data' H. discriminate H.
    + apply Nat.eqb_neq in Hlen.
      split; [|split].
      * split; [intros H; discriminate H|].
        intros [_ Hall]. apply Hempty in Hall. rewrite Hall in Hlen. now elim Hlen.
      * intros Hnot. lia.
      * intros data' [= <-] _. simpl. split; [reflexivity|]. split; [|reflexivity].
        intros Hnil. rewrite Hnil in Hlen. now elim Hlen.
  - assert (Hnot : t - lastCleanup data <= cleanupInterval).
    { destruct (Z.gtb_spec (t - lastCleanup data) cleanupInterval); [discriminate | lia]. }
    split; [|split].
    + split; [intros H; discriminate H | intros [Hlt _]; lia].
    + reflexivity.
    + intros data' _ Hlt. lia.
Qed.

Lemma cleanup_deletes_exactly_expired_buckets_witness :
  oneBucket [1000; 2000] !! "unknown"%string = Some (mkBucket [1000; 2000] 1000) /\
  omap (cleanupEntry 400000) (oneBucket [1000; 2000]) !! "unknown"%string = None.
Proof.
  assert (Hkey : oneBucket [1000; 2000] !! "unknown"%string
                 = Some (mkBucket [1000; 2000] 1000)) by reflexivity.
  split; [exact Hkey|].
  apply (cleanup_deletes_exactly_expired_buckets 400000 (oneBucket [1000; 2000])
           "unknown" (mkBucket [1000; 2000] 1000) Hkey).
  split; [reflexivity|]. simpl. repeat constructor; lia.
Defined.

(** The verdict of the limiter is a function of the two counts. *)
Lemma rateLimit_verdict (window maxIP maxSession t : Z) (clientIP sessionId : string) maps :
  fst (rateLimit window maxIP maxSession t clientIP sessionId maps) =
  if Z.of_nat (length (counted window t clientIP (rateLimitMap maps))) >=? maxIP
  then Some (Response "Rate limit exceeded. Please slow down." 429)
  else if Z.of_nat (length (counted window t sessionId (sessionRateLimitMap maps)))
          >=? maxSession
       then Some (Response "Rate limit exceeded for this session. Please slow down." 429)
       else None.
Proof.
  unfold counted, rateLimit. rewrite !getBucket_ensure.
  destruct (_ >=? maxIP); [reflexivity|].
  destruct (_ >=? maxSession); reflexivity.
Qed.

(** X5. A cleanup never changes what the limiter decides afterwards: for a
    request whose clock reading is not before the cleanup's, the verdict on
    the cleaned maps is the verdict on the maps as they were, whatever the
    two maxima. *)
Theorem cleanup_never_changes_a_later_verdict
    (cleanupTime t maxIP maxSession : Z) (clientIP sessionId : string) maps :
  cleanupTime <= t ->
  fst (rateLimit windowMs maxIP maxSession t clientIP sessionId
         (cleanupRateLimit cleanupTime maps))
  = fst (rateLimit windowMs maxIP maxSession t clientIP sessionId maps).
Proof.
  intros Hclock. rewrite !rateLimit_verdict. unfold cleanupRateLimit.
  simpl rateLimitMap. simpl sessionRateLimitMap.
  now rewrite !cleanup_counted by exact Hclock.
Qed.

Lemma cleanup_never_changes_a_later_verdict_witness :
  400000 <= 400000 /\
  fst (rateLimit windowMs 1 1 400000 "unknown" "uuid-1"
         (cleanupRateLimit 400000 (mkRateLimits (oneBucket [1000; 399000]) ∅)))
  = fst (rateLimit windowMs 1 1 400000 "unknown" "uuid-1"
           (mkRateLimits (oneBucket [1000; 399000]) ∅)).
Proof.
  split; [lia|]. apply cleanup_never_changes_a_later_verdict. lia.
Defined.

Lemma cleanup_atMost (n t : Z) m :
  atMost n m -> atMost n (omap (cleanupEntry t) m).
Proof.
  intros Hbound key data' Hkey. rewrite lookup_omap in Hkey.
  destruct (m !! key) as [data|] eqn:Hdata; simpl in Hkey; [|discriminate Hkey].
  pose proof (Hbound key data Hdata) as Hlen. unfold cleanupEntry in Hkey.
  destruct (t - lastCleanup data >? cleanupInterval).
  - destruct (Nat.eqb _ 0); [discriminate Hkey|]. injection Hkey as <-. simpl.
    pose proof (length_filter (fun time => t - time < 60 * 1000) (requests data)). lia.
  - injection Hkey as <-. exact Hlen.
Qed.

Lemma lookup_ensure_ne (t : Z) key key' m :
  key <> key' -> ensure t key m !! key' = m !! key'.
Proof.
  intros Hne. unfold ensure. destruct (m !! key); [reflexivity|].
  now rewrite lookup_insert_ne.
Qed.

Lemma ensure_atMost (n t : Z) key m :
  0 <= n -> atMost n m -> atMost n (ensure t key m).
Proof.
  intros Hn Hbound key' data Hkey. unfold ensure in Hkey.
  destruct (m !! key) as [old|] eqn:Hold; [exact (Hbound key' data Hkey)|].
  destruct (decide (key = key')) as [<- | Hne].
  - rewrite lookup_insert_eq in Hkey. injection Hkey as <-. simpl. exact Hn.
  - rewrite lookup_insert_ne in Hkey by exact Hne. exact (Hbound key' data Hkey).
Qed.

Lemma insert_atMost (n : Z) key m (data : bucket) :
  Z.of_nat (length (requests data)) <= n -> atMost n m -> atMost n (<[key := data]> m).
Proof.
  intros Hlen Hbound key' data' Hkey.
  destruct (decide (key = key')) as [<- | Hne].
  - rewrite lookup_insert_eq in Hkey. injection Hkey as <-. exact Hlen.
  - rewrite lookup_insert_ne in Hkey by exact Hne. exact (Hbound key' data' Hkey).
Qed.

(** The limiter step keeps both maps within the maxima it enforces. *)
Lemma rateLimit_atMost (window maxIP maxSession t : Z) (clientIP sessionId : string) maps :
  0 <= maxIP -> 0 <= maxSession ->
  atMost maxIP (rateLimitMap maps) -> atMost maxSession (sessionRateLimitMap maps) ->
  atMost maxIP
    (rateLimitMap (snd (rateLimit window maxIP maxSession t clientIP sessionId maps))) /\
  atMost maxSession
    (sessionRateLimitMap (snd (rateLimit window maxIP maxSession t clientIP sessionId maps))).
Proof.
  intros HmaxIP HmaxSession Hip Hsession. unfold rateLimit.
  destruct (_ >=? maxIP) eqn:Hcheck1; simpl.
  - split; [apply ensure_atMost; assumption | exact Hsession].
  - destruct (_ >=? maxSession) eqn:Hcheck2; simpl.
    + split; apply ensure_atMost; assumption.
    + split; (apply insert_atMost; [|apply ensure_atMost; assumption]);
        simpl; rewrite length_app; simpl; lia.
Qed.

(** X6. No bucket ever outgrows its maximum: if every bucket of the IP map
    holds at most 30 timestamps and every bucket of the session map at most
    20, the same is true after any vote request, whatever its outcome and
    whether or not the cleanup ran. *)
Theorem action_keeps_buckets_within_maxima (rq : request) (w : world) :
  atMost 30 (rateLimitMap (limits w)) ->
  atMost 20 (sessionRateLimitMap (limits w)) ->
  atMost 30 (rateLimitMap (limits (snd (action rq w)))) /\
  atMost 20 (sessionRateLimitMap (limits (snd (action rq w)))).
Proof.
  intros Hip Hsession. unfold action.
  destruct (isNaN (winnerId rq) || isNaN (loserId rq)
            || strictEq (winnerId rq) (loserId rq)); [split; assumption|].
  assert (Hclean : atMost 30 (rateLimitMap (maybeCleanup rq (limits w))) /\
                   atMost 20 (sessionRateLimitMap (maybeCleanup rq (limits w)))).
  { unfold maybeCleanup. destruct (negb _); [|split; assumption].
    unfold cleanupRateLimit. simpl. split; apply cleanup_atMost; assumption. }
  destruct Hclean as [Hip' Hsession'].
  pose proof (rateLimit_atMost windowMs maxRequestsPerIP maxRequestsPerSession
                (now rq) (clientIPOf rq) (sessionIdOf rq) (maybeCleanup rq (limits w))
                ltac:(unfold maxRequestsPerIP; lia) ltac:(unfold maxRequestsPerSession; lia)
                Hip' Hsession') as Hstep.
  destruct (rateLimit _ _ _ _ _ _ _) as [[response|] maps']; simpl in Hstep |- *;
    [exact Hstep|].
  destruct (tryVote rq (images w)); exact Hstep.
Qed.

Lemma action_keeps_buckets_within_maxima_witness :
  atMost 30 (rateLimitMap (limits twoImages)) /\
  atMost 30 (rateLimitMap (limits (snd (action voteAB twoImages)))).
Proof.
  assert (Hempty : forall n, atMost n ∅).
  { intros n key data Hkey. rewrite lookup_empty in Hkey. discriminate Hkey. }
  split; [apply Hempty|].
  apply (action_keeps_buckets_within_maxima voteAB twoImages); apply Hempty.
Defined.

Lemma rateLimit_frame (window maxIP maxSession t : Z) (clientIP sessionId : string) maps key :
  (key <> clientIP ->
   rateLimitMap (snd (rateLimit window maxIP maxSession t clientIP sessionId maps)) !! key
   = rateLimitMap maps !! key) /\
  (key <> sessionId ->
   sessionRateLimitMap (snd (rateLimit window maxIP maxSession t clientIP sessionId maps))
     !! key
   = sessionRateLimitMap maps !! key).
Proof.
  unfold rateLimit.
  destruct (_ >=? maxIP); simpl.
  - split; [intros Hne; apply lookup_ensure_ne; congruence | reflexivity].
  - destruct (_ >=? maxSession); simpl.
    + split; intros Hne; apply lookup_ensure_ne; congruence.
    + split; intros Hne; rewrite lookup_insert_ne by congruence;
        apply lookup_ensure_ne; congruence.
Qed.

(** X7. A vote request during which the cleanup does not run touches no
    bucket but its own: the bucket of every other client IP and of every
    other session is exactly what it was, whatever the outcome. *)
Theorem action_leaves_other_identities_alone (rq : request) (w : world) (key : string) :
  Qle_bool (1 # 10) (cleanupDraw rq) = true ->
  (key <> clientIPOf rq ->
   rateLimitMap (limits (snd (action rq w))) !! key = rateLimitMap (limits w) !! key) /\
  (key <> sessionIdOf rq ->
   sessionRateLimitMap (limits (snd (action rq w))) !! key
   = sessionRateLimitMap (limits w) !! key).
Proof.
  intros Hdraw. unfold action.
  destruct (isNaN (winnerId rq) || isNaN (loserId rq)
            || strictEq (winnerId rq) (loserId rq)); [split; reflexivity|].
  unfold maybeCleanup. rewrite Hdraw. simpl negb. cbv iota.
  pose proof (rateLimit_frame windowMs maxRequestsPerIP maxRequestsPerSession
                (now rq) (clientIPOf rq) (sessionIdOf rq) (limits w) key) as Hframe.
  destruct (rateLimit _ _ _ _ _ _ _) as [[response|] maps']; simpl in Hframe |- *;
    [exact Hframe|].
  destruct (tryVote rq (images w)); exact Hframe.
Qed.

Lemma action_leaves_other_identities_alone_witness :
  Qle_bool (1 # 10) (cleanupDraw voteAB) = true /\
  sessionRateLimitMap
    (limits (snd (action voteAB (mkWorld (mkRateLimits ∅ (oneBucket [500]))
                                         (images twoImages))))) !! "unknown"%string
  = Some (mkBucket [500] 1000).
Proof.
  split; [reflexivity|].
  rewrite (proj2 (action_leaves_other_identities_alone voteAB
                    (mkWorld (mkRateLimits ∅ (oneBucket [500])) (images twoImages))
                    "unknown" eq_refl)); [reflexivity | discriminate].
Defined.

(** A burst seen from a state in which both buckets of the identity hold
    the same [accepted] timestamps, all of them recent for every request to
    come. *)
Lemma burst_verdicts (clientIP sessionId : string) :
  forall (times accepted : list Z) maps,
    bucketRequests clientIP (rateLimitMap maps) = accepted ->
    bucketRequests sessionId (sessionRateLimitMap maps) = accepted ->
    Forall (fun t => Forall (fun time => t - time < windowMs) accepted) times ->
    Forall (fun t => Forall (fun t' => t' - t < windowMs) times) times ->
    forall (i : nat) (verdict : option thrown),
      nth_error (burst clientIP sessionId times maps) i = Some verdict ->
      (Z.of_nat (length accepted + i) < 20 -> verdict = None) /\
      (20 <= Z.of_nat (length accepted + i) -> throttled verdict).
Proof.
  induction times as [| t later IH]; intros accepted maps Hip Hsession Hrecent Hclose i verdict.
  - destruct i; intros H; discriminate H.
  - simpl burst. apply List.Forall_cons_iff in Hrecent as [Ht Hlater].
    apply List.Forall_cons_iff in Hclose as [Hfromt Hfromlater].
    assert (Hclose' : Forall (fun t0 => Forall (fun t' => t' - t0 < windowMs) later) later).
    { eapply List.Forall_impl; [|exact Hfromlater]. intros t0 Ht0.
      apply List.Forall_cons_iff in Ht0 as [_ Ht0]. exact Ht0. }
    destruct (Z_lt_le_dec (Z.of_nat (length accepted)) 20) as [Hroom | Hfull].
    + destruct (rateLimit_appends windowMs maxRequestsPerIP maxRequestsPerSession
                  t clientIP sessionId maps accepted accepted Hip Hsession Ht Ht
                  ltac:(unfold maxRequestsPerIP; lia)
                  ltac:(unfold maxRequestsPerSession; lia))
        as (Hverdict & Hip' & Hsession').
      * destruct i as [| i]; simpl nth_error.
        -- intros [= <-]. split; [intros _; exact Hverdict | rewrite Nat.add_0_r; lia].
        -- intros Hnth.
           pose proof (IH (accepted ++ [t]) _ Hip' Hsession') as Hrest.
           rewrite length_app in Hrest. simpl length in Hrest.
           replace (length accepted + S i)%nat with (length accepted + 1 + i)%nat by lia.
           apply Hrest; [|exact Hclose' | exact Hnth].
           clear Hrest. apply List.Forall_cons_iff in Hfromt as [_ Hfromt].
           rewrite List.Forall_forall in Hlater, Hfromt.
           apply List.Forall_forall. intros t0 Ht0.
           apply List.Forall_app. split; [exact (Hlater t0 Ht0)|].
           constructor; [exact (Hfromt t0 Ht0) | constructor].
    + destruct (rateLimit_throttled windowMs maxRequestsPerIP maxRequestsPerSession
                  t clientIP sessionId maps) as (Hverdict & Hsame).
      { right. unfold counted. rewrite Hsession, recent_all by exact Ht.
        unfold maxRequestsPerSession. exact Hfull. }
      destruct (Hsame clientIP) as [Hip' _]. destruct (Hsame sessionId) as [_ Hsession'].
      rewrite Hip in Hip'. rewrite Hsession in Hsession'.
      destruct i as [| i]; simpl nth_error.
      * intros [= <-]. split; [lia | intros _; exact Hverdict].
      * intros Hnth.
        destruct (IH accepted _ Hip' Hsession' Hlater Hclose' i verdict Hnth)
          as [_ Hthrottled].
        split; [lia | intros _; apply Hthrottled; lia].
Qed.

(** X14. A burst of requests of one client that has no recorded timestamp,
    all within 60 seconds of one another: exactly the first 20 pass the
    limiter of the handler and every later one gets the 429 response, since
    the session maximum of 20 is reached before the IP maximum of 30 and a
    rejected request is not recorded. *)
Theorem burst_passes_exactly_twenty
    (clientIP sessionId : string) (times : list Z) (maps : rateLimits)
    (i : nat) (verdict : option thrown) :
  bucketRequests clientIP (rateLimitMap maps) = [] ->
  bucketRequests sessionId (sessionRateLimitMap maps) = [] ->
  Forall (fun t => Forall (fun t' => t' - t < windowMs) times) times ->
  nth_error (burst clientIP sessionId times maps) i = Some verdict ->
  length (burst clientIP sessionId times maps) = length times /\
  ((i < 20)%nat -> verdict = None) /\
  ((20 <= i)%nat -> throttled verdict).
Proof.
  intros Hip Hsession Hclose Hnth. split.
  - clear. revert maps. induction times as [| t later IH]; intros maps; simpl;
      [reflexivity | now rewrite IH].
  - destruct (burst_verdicts clientIP sessionId times [] maps Hip Hsession) with
      (i := i) (verdict := verdict) as [Hpass Hstop].
    + apply List.Forall_forall. intros t _. constructor.
    + exact Hclose.
    + exact Hnth.
    + simpl in Hpass, Hstop. split; [intros Hi; apply Hpass; lia|].
      intros Hi. apply Hstop. lia.
Qed.

Lemma burst_passes_exactly_twenty_witness :
  nth_error (burst "unknown" "uuid-1" (List.repeat 5000 22) noLimits) 19 = Some None /\
  exists verdict,
    nth_error (burst "unknown" "uuid-1" (List.repeat 5000 22) noLimits) 20 = Some verdict /\
    throttled verdict.
Proof.
  assert (Hclose : Forall (fun t => Forall (fun t' => t' - t < windowMs)
                                      (List.repeat 5000 22)) (List.repeat 5000 22)).
  { apply List.Forall_forall. intros t Ht. apply List.Forall_forall. intros t' Ht'.
    apply List.repeat_spec in Ht, Ht'. subst. reflexivity. }
  split; [reflexivity|].
  eexists. split; [reflexivity|].
  eapply (burst_passes_exactly_twenty "unknown" "uuid-1" (List.repeat 5000 22) noLimits 20);
    [reflexivity | reflexivity | exact Hclose | reflexivity | lia].
Defined.

End LimiterBeyond.

(** ** Beyond the claims: the outcome of the handler *)

Section ActionBeyond.

Lemma tryVote_inr_fault (rq : request) (table table' : list image) :
  tryVote rq table = inr table' -> storeFault rq = NoFault.
Proof.
  unfold tryVote. destruct (storeFault rq); simpl; [reflexivity | |].
  - intros H. discriminate H.
  - destruct (findUnique table (winnerId rq)) as [[winner|]|];
      destruct (findUnique table (loserId rq)) as [[loser|]|];
      intros H; discriminate H.
Qed.

(** The [try] succeeds on two rows that exist when the store does not fail. *)
Lemma tryVote_intro (rq : request) (table : list image) (zw zl : Z) (winner loser : image) :
  storeFault rq = NoFault ->
  asInteger (winnerId rq) = Some zw -> asInteger (loserId rq) = Some zl ->
  List.find (fun row => id row =? zw) table = Some winner ->
  List.find (fun row => id row =? zl) table = Some loser ->
  tryVote rq table
  = inr (List.map (withElo zl (newLoserElo (elo winner) (elo loser)))
           (List.map (withElo zw (newWinnerElo (elo winner) (elo loser))) table)).
Proof.
  intros Hfault Hzw Hzl Hw Hl. unfold tryVote, findUnique.
  rewrite Hfault, Hzw, Hzl, Hw, Hl. simpl fault_eqb. cbv iota. simpl transaction.
  rewrite (update_found table (winnerId rq) zw _ winner Hzw Hw).
  erewrite (update_found _ (loserId rq) zl _ _ Hzl); [reflexivity|].
  rewrite find_withElo, Hl. reflexivity.
Qed.

(** X10. The handler returns exactly when the ids pass the validation,
    both counts are below their maxima, the store does not fail and both
    ids are integers that rows of the table have; what it then returns is
    the session id of the cookie, or the fresh one when the cookie had
    none. *)
Theorem vote_returns_exactly_when (rq : request) (w : world) :
  let maps := maybeCleanup rq (limits w) in
  ((exists sid w', action rq w = (Returned sid, w')) <->
   validIds rq = true /\
   Z.of_nat (length (counted windowMs (now rq) (clientIPOf rq) (rateLimitMap maps))) < 30 /\
   Z.of_nat (length (counted windowMs (now rq) (sessionIdOf rq) (sessionRateLimitMap maps)))
   < 20 /\
   storeFault rq = NoFault /\
   exists zw zl winner loser,
     asInteger (winnerId rq) = Some zw /\ asInteger (loserId rq) = Some zl /\
     List.find (fun row => id row =? zw) (images w) = Some winner /\
     List.find (fun row => id row =? zl) (images w) = Some loser) /\
  (forall sid w', action rq w = (Returned sid, w') -> sid = sessionIdOf rq).
Proof.
  intros maps.
  assert (Hsid : forall sid w', action rq w = (Returned sid, w') -> sid = sessionIdOf rq).
  { intros sid w'. unfold action.
    destruct (isNaN (winnerId rq) || isNaN (loserId rq)
              || strictEq (winnerId rq) (loserId rq)); [intros H; discriminate H|].
    destruct (rateLimit _ _ _ _ _ _ _) as [[response|] maps'];
      [intros H; discriminate H|].
    destruct (tryVote rq (images w)); intros H; [discriminate H|].
    injection H as <- _. reflexivity. }
  split; [|exact Hsid]. split.
  - intros (sid & w' & Hret).
    assert (Hvalid : validIds rq = true).
    { unfold validIds. destruct (isNaN (winnerId rq) || isNaN (loserId rq)
                                 || strictEq (winnerId rq) (loserId rq)) eqn:Hbad;
        [|reflexivity].
      unfold action in Hret. rewrite Hbad in Hret. discriminate Hret. }
    pose proof Hret as Hret'. rewrite (action_valid rq w Hvalid) in Hret'.
    fold maps in Hret'.
    pose proof (rateLimit_verdict windowMs maxRequestsPerIP maxRequestsPerSession
                  (now rq) (clientIPOf rq) (sessionIdOf rq) maps) as Hverdict.
    destruct (rateLimit _ _ _ _ _ _ maps) as [[response|] maps'];
      [discriminate Hret'|].
    simpl in Hverdict.
    destruct (_ >=? maxRequestsPerIP) eqn:Hip in Hverdict; [discriminate Hverdict|].
    destruct (_ >=? maxRequestsPerSession) eqn:Hsession in Hverdict;
      [discriminate Hverdict|].
    unfold maxRequestsPerIP in Hip. unfold maxRequestsPerSession in Hsession.
    apply action_Returned in Hret as [_ Htry].
    pose proof (tryVote_inr_fault _ _ _ Htry) as Hfault.
    apply tryVote_inr in Htry as (zw & zl & winner & loser & Hzw & Hzl & Hw & Hl & _).
    split; [exact Hvalid|]. split; [lia|]. split; [lia|]. split; [exact Hfault|].
    exists zw, zl, winner, loser. repeat split; assumption.
  - intros (Hvalid & Hip & Hsession & Hfault & zw & zl & winner & loser
            & Hzw & Hzl & Hw & Hl).
    rewrite (action_valid rq w Hvalid). fold maps.
    destruct (rateLimit_allowed windowMs maxRequestsPerIP maxRequestsPerSession
                (now rq) (clientIPOf rq) (sessionIdOf rq) maps Hip Hsession)
      as (Hverdict & _).
    destruct (rateLimit _ _ _ _ _ _ maps) as [verdict maps']. simpl in Hverdict.
    subst verdict.
    rewrite (tryVote_intro rq (images w) zw zl winner loser Hfault Hzw Hzl Hw Hl).
    eexists _, _. reflexivity.
Qed.

Lemma vote_returns_exactly_when_witness :
  exists sid w', action voteCD fourImages = (Returned sid, w').
Proof.
  apply (proj1 (vote_returns_exactly_when voteCD fourImages)).
  split; [reflexivity|]. split; [change (0 < 30); lia|]. split; [change (0 < 20); lia|].
  split; [reflexivity|].
  exists 3, 4, imageC, imageD. repeat split; reflexivity.
Defined.

(** The ids in the listing of the rows are the same after any request. *)
Lemma action_ids (rq : request) (w : world) :
  List.map id (images (snd (action rq w))) = List.map id (images w).
Proof.
  destruct (action_cases rq w) as [[sid Hret] | (e & _ & Hsame)];
    [|now rewrite Hsame].
  apply action_applied in Hret as (zw & zl & winner & loser & _ & _ & _ & _ & _ & ->).
  rewrite !List.map_map. apply List.map_ext. intros row. now rewrite !withElo_id.
Qed.

(** X11. No vote request, whatever its outcome, adds, removes or re-keys a
    row: the table has a row with a given id afterwards exactly when it had
    one before, the row count the sampler reads is unchanged, and ids that
    were distinct stay distinct. *)
Theorem action_keeps_the_rows (rq : request) (w : world) :
  uniqueIds (images w) ->
  (forall z, In z (List.map id (images (snd (action rq w))))
             <-> In z (List.map id (images w))) /\
  count (images (snd (action rq w))) = count (images w) /\
  uniqueIds (images (snd (action rq w))).
Proof.
  intros Hids. pose proof (action_ids rq w) as Hsame.
  split; [intros z; now rewrite Hsame|]. split.
  - unfold count. f_equal.
    rewrite <- (List.length_map id (images (snd (action rq w)))), Hsame.
    apply List.length_map.
  - unfold uniqueIds. now rewrite Hsame.
Qed.

Lemma action_keeps_the_rows_witness :
  uniqueIds (images fourImages) /\ uniqueIds (images (snd (action voteCD fourImages))).
Proof.
  split; [exact fourImages_uniqueIds|].
  apply (action_keeps_the_rows voteCD fourImages fourImages_uniqueIds).
Defined.

Lemma withElo_comm (a b : Z) (ea eb : R) (row : image) :
  a <> b -> withElo a ea (withElo b eb row) = withElo b eb (withElo a ea row).
Proof.
  intros Hne. unfold withElo.
  destruct (id row =? b) eqn:Hb; destruct (id row =? a) eqn:Ha; simpl;
    rewrite ?Ha, ?Hb; try reflexivity.
  apply Z.eqb_eq in Ha, Hb. congruence.
Qed.

(** A write to another id does not change what a lookup finds. *)
Lemma find_withElo_other (z z' : Z) (e : R) (table : list image) :
  z <> z' ->
  List.find (fun row => id row =? z') (List.map (withElo z e) table)
  = List.find (fun row => id row =? z') table.
Proof.
  intros Hne. rewrite find_withElo.
  destruct (List.find (fun row => id row =? z') table) as [row|] eqn:Hfind;
    [|reflexivity].
  simpl. rewrite withElo_other; [reflexivity|].
  apply find_id in Hfind. congruence.
Qed.

(** X12. Votes on disjoint pairs of images commute on the table: if a vote
    and then a second vote on two other ids both succeed, the second vote
    also succeeds first, the first one after it, and the table that results
    is the same. *)
Theorem disjoint_votes_commute (rq1 rq2 : request) (table table1 table12 : list image) :
  (forall z1 z2,
     asInteger (winnerId rq1) = Some z1 \/ asInteger (loserId rq1) = Some z1 ->
     asInteger (winnerId rq2) = Some z2 \/ asInteger (loserId rq2) = Some z2 ->
     z1 <> z2) ->
  tryVote rq1 table = inr table1 ->
  tryVote rq2 table1 = inr table12 ->
  exists table2,
    tryVote rq2 table = inr table2 /\ tryVote rq1 table2 = inr table12.
Proof.
  intros Hdisjoint Hfirst Hsecond.
  pose proof (tryVote_inr_fault _ _ _ Hfirst) as Hfault1.
  pose proof (tryVote_inr_fault _ _ _ Hsecond) as Hfault2.
  apply tryVote_inr in Hfirst
    as (zw1 & zl1 & winner1 & loser1 & Hzw1 & Hzl1 & Hw1 & Hl1 & ->).
  apply tryVote_inr in Hsecond
    as (zw2 & zl2 & winner2 & loser2 & Hzw2 & Hzl2 & Hw2 & Hl2 & ->).
  assert (Hww : zw1 <> zw2) by (apply Hdisjoint; [left | left]; assumption).
  assert (Hwl : zw1 <> zl2) by (apply Hdisjoint; [left | right]; assumption).
  assert (Hlw : zl1 <> zw2) by (apply Hdisjoint; [right | left]; assumption).
  assert (Hll : zl1 <> zl2) by (apply Hdisjoint; [right | right]; assumption).
  rewrite !find_withElo_other in Hw2, Hl2 by assumption.
  eexists. split.
  - exact (tryVote_intro rq2 table zw2 zl2 winner2 loser2 Hfault2 Hzw2 Hzl2 Hw2 Hl2).
  - rewrite (tryVote_intro rq1 _ zw1 zl1 winner1 loser1 Hfault1 Hzw1 Hzl1).
    + f_equal. rewrite !List.map_map. apply List.map_ext. intros row.
      rewrite (withElo_comm zw1 zl2) by assumption.
      rewrite (withElo_comm zl1 zl2) by assumption.
      rewrite (withElo_comm zw1 zw2) by assumption.
      rewrite (withElo_comm zl1 zw2) by assumption.
      reflexivity.
    + rewrite !find_withElo_other by congruence. exact Hw1.
    + rewrite !find_withElo_other by congruence. exact Hl1.
Qed.

Lemma disjoint_votes_commute_witness :
  exists table2,
    tryVote voteCD (images fourImages) = inr table2 /\
    tryVote voteAB table2 = inr (images (snd (action voteCD (snd (action voteAB fourImages))))).
Proof.
  apply (disjoint_votes_commute voteAB voteCD (images fourImages)
           (images (snd (action voteAB fourImages)))).
  - intros z1 z2 [H1 | H1] [H2 | H2];
      injection H1 as <-; injection H2 as <-; discriminate.
  - reflexivity.
  - reflexivity.
Defined.

Lemma orElse_nonempty (a : option string) (b : string) :
  b <> ""%string -> orElse a b <> ""%string.
Proof.
  intros Hb. unfold orElse. destruct a as [s|]; [|exact Hb].
  destruct (String.eqb s "") eqn:Hs; [exact Hb|].
  now apply String.eqb_neq.
Qed.

Lemma orElse_usable (s b : string) : s <> ""%string -> orElse (Some s) b = s.
Proof.
  intros Hs. unfold orElse. apply String.eqb_neq in Hs. now rewrite Hs.
Qed.

Lemma orElse_unusable (a : option string) (b : string) :
  (forall s, a = Some s -> s = ""%string) -> orElse a b = b.
Proof.
  intros Hempty. unfold orElse. destruct a as [s|]; [|reflexivity].
  now rewrite (Hempty s eq_refl).
Qed.

Lemma splitFirst_no_comma (s : string) : hasComma (splitFirst s) = false.
Proof.
  induction s as [| c rest IH]; simpl; [reflexivity|].
  destruct (Ascii.eqb c ","%char) eqn:Hc; simpl; [reflexivity|].
  now rewrite Hc, IH.
Qed.

Lemma splitFirst_prefix (s : string) :
  exists rest, s = (splitFirst s ++ rest)%string.
Proof.
  induction s as [| c rest IH]; simpl; [exists ""%string; reflexivity|].
  destruct (Ascii.eqb c ","%char); [exists (String c rest); reflexivity|].
  destruct IH as [tail Htail]. exists tail.
  change (String c rest = String c (splitFirst rest ++ tail)%string).
  f_equal. exact Htail.
Qed.

Lemma splitFirst_whole (s : string) : hasComma s = false -> splitFirst s = s.
Proof.
  induction s as [| c rest IH]; simpl; [reflexivity|].
  destruct (Ascii.eqb c ","%char); simpl; [intros H; discriminate H|].
  intros Hrest. now rewrite IH.
Qed.

(** X13. The key of the IP bucket is never the empty string.  It is the
    part of x-forwarded-for before its first comma when that part is not
    empty (the whole header when it has no comma), else x-real-ip, else
    cf-connecting-ip, each skipped when absent or empty, and "unknown" when
    none of the three is usable; so all clients without such a header share
    one bucket. *)
Theorem clientIP_is_never_empty (rq : request) :
  clientIPOf rq <> ""%string /\
  (forall s, xForwardedFor rq = Some s -> splitFirst s <> ""%string ->
     clientIPOf rq = splitFirst s /\ hasComma (clientIPOf rq) = false /\
     (exists rest, s = (clientIPOf rq ++ rest)%string) /\
     (hasComma s = false -> clientIPOf rq = s)) /\
  ((forall s, xForwardedFor rq = Some s -> splitFirst s = ""%string) ->
   (forall s, xRealIp rq = Some s -> s <> ""%string -> clientIPOf rq = s) /\
   ((forall s, xRealIp rq = Some s -> s = ""%string) ->
    (forall s, cfConnectingIp rq = Some s -> s <> ""%string -> clientIPOf rq = s) /\
    ((forall s, cfConnectingIp rq = Some s -> s = ""%string) ->
     clientIPOf rq = "unknown"%string))).
Proof.
  unfold clientIPOf. split; [|split].
  - repeat apply orElse_nonempty. discriminate.
  - intros s Hxff Husable. rewrite Hxff. simpl option_map.
    rewrite orElse_usable by exact Husable.
    split; [reflexivity|]. split; [apply splitFirst_no_comma|].
    split; [apply splitFirst_prefix | apply splitFirst_whole].
  - intros Hxff.
    rewrite (orElse_unusable (option_map splitFirst (xForwardedFor rq))).
    2:{ intros s Hs. destruct (xForwardedFor rq) as [h|]; [|discriminate Hs].
        injection Hs as <-. exact (Hxff h eq_refl). }
    split.
    + intros s Hreal Husable. rewrite Hreal. apply orElse_usable. exact Husable.
    + intros Hreal. rewrite (orElse_unusable (xRealIp rq)) by exact Hreal. split.
      * intros s Hcf Husable. rewrite Hcf. apply orElse_usable. exact Husable.
      * intros Hcf. apply orElse_unusable. exact Hcf.
Qed.

Lemma clientIP_is_never_empty_witness :
  xForwardedFor voteProxied = Some "203.0.113.9, 10.0.0.1"%string /\
  clientIPOf voteProxied = "203.0.113.9"%string.
Proof.
  split; [reflexivity|].
  destruct (proj1 (proj2 (clientIP_is_never_empty voteProxied))
              "203.0.113.9, 10.0.0.1"%string eq_refl ltac:(discriminate)) as [Hip _].
  exact Hip.
Defined.

End ActionBeyond.
